(** * vscode-zig: the language-server glue of [src/zls.ts]

    A shallow embedding of the configuration bridge
    ([configurationMiddleware]), the version resolver ([fetchVersion]),
    the binary locator and verifier ([getZLSPath]) and the session
    lifecycle ([restartClient], [startClient], [stopClient]).

    The editor host, the settings store, the HTTP client, the semver
    package and the helpers of [zigUtil.ts] are not part of that file: they
    enter as fields of environment records (oracles), one field per call
    the source makes.  What the source shows to the user or asks the host
    to do is recorded as a list of [Event]s. *)

From Stdlib Require Import ZArith Lia Ascii.
From stdpp Require Import base option list strings gmap.

Set Default Proof Using "Type".
Set Warnings "-register-all".

(** ** JavaScript values *)

Module Js.

(** [LSPAny]: a JSON value, with [undefined] for what JavaScript reads from
    a missing slot or property. *)
Inductive LSPAny : Type :=
| VUndefined
| VNull
| VBool (b : bool)
| VNum (z : Z)
| VStr (s : string)
| VArr (elems : list LSPAny)
| VObj (props : list (string * LSPAny)).

(** A value that was thrown: [err instanceof Error] holds of [ThrownError]
    only. *)
Inductive Thrown : Type :=
| ThrownError (message : string)
| ThrownOther (v : LSPAny).

Definition instanceof_Error (t : Thrown) : bool :=
  match t with ThrownError _ => true | ThrownOther _ => false end.

(** The result of a call that may throw. *)
Inductive Completion (A : Type) : Type :=
| Normal (a : A)
| Abrupt (t : Thrown).
Arguments Normal {A} a.
Arguments Abrupt {A} t.

(** [s.slice(n)] for [0 <= n]: the string without its first [n]
    characters. *)
Fixpoint slice (n : nat) (s : string) : string :=
  match n, s with
  | O, _ => s
  | S _, EmptyString => EmptyString
  | S n', String _ rest => slice n' rest
  end.
Global Arguments slice : simpl never.

(** Truthiness of a string: every string but the empty one. *)
Definition truthy_string (s : string) : bool :=
  match s with EmptyString => false | String _ _ => true end.

(** [arr[i]]: a missing slot reads as [undefined]. *)
Definition js_get (arr : list LSPAny) (i : nat) : LSPAny :=
  default VUndefined (arr !! i).

(** [arr[i] = v]: in range the slot is replaced; out of range the array is
    extended, the slots in between being holes, which read as [undefined]. *)
Definition js_set (i : nat) (v : LSPAny) (arr : list LSPAny) : list LSPAny :=
  if decide (i < length arr) then <[i:=v]> arr
  else arr ++ replicate (i - length arr) VUndefined ++ [v].

(** [key in obj] and [obj[key]] on an object given by its own
    properties. *)
Fixpoint own_property {A : Type} (key : string) (obj : list (string * A)) : option A :=
  match obj with
  | [] => None
  | (k, v) :: rest => if String.eqb k key then Some v else own_property key rest
  end.

Definition js_in (key : string) (obj : list (string * LSPAny)) : bool :=
  bool_decide (is_Some (own_property key obj)).

Definition js_prop (key : string) (obj : list (string * LSPAny)) : LSPAny :=
  default VUndefined (own_property key obj).

(** The names every object literal inherits from [Object.prototype]: a
    lookup of one of them on [{}] yields a function (or the prototype),
    not [undefined]. *)
Definition object_prototype_keys : list string :=
  [ "constructor"; "__defineGetter__"; "__defineSetter__"; "hasOwnProperty";
    "__lookupGetter__"; "__lookupSetter__"; "isPrototypeOf";
    "propertyIsEnumerable"; "toString"; "valueOf"; "__proto__";
    "toLocaleString" ].

Definition inherited (key : string) : bool :=
  existsb (String.eqb key) object_prototype_keys.

End Js.
Import Js.

(** ** What the user sees and what the host is asked to do, outside the
    configuration bridge *)

(** The texts of the messages, one constructor per template of the source,
    with the values interpolated into it. *)
Inductive Message (SemVer : Type) : Type :=
| FailedToRunWith (reason : string)
    (* Failed to run Zig Language Server (ZLS): <reason> *)
| FailedToRun
    (* Failed to run Zig Language Server (ZLS) *)
| FailedToInstall (version : SemVer)
    (* Failed to install ZLS <version>! *)
| UnableToCheckVersion (zlsExePath : string)
    (* Unable to check ZLS version. '<path> --version' failed! *)
| UnexpectedVersion (expected : SemVer) (zlsExePath : string) (got : SemVer)
    (* Encountered unexpected ZLS version. Expected ... but got ...! *)
| FailedToQuery (reason : string)
    (* Failed to query ZLS version: <reason> *)
| UnableToFetch (message : LSPAny)
    (* Unable to fetch ZLS: <message> *)
| NoPrebuiltBinary (version : LSPAny).
    (* A prebuilt ZLS <version> binary is not available for your system. ... *)
Arguments FailedToRunWith {SemVer} reason.
Arguments FailedToRun {SemVer}.
Arguments FailedToInstall {SemVer} version.
Arguments UnableToCheckVersion {SemVer} zlsExePath.
Arguments UnexpectedVersion {SemVer} expected zlsExePath got.
Arguments FailedToQuery {SemVer} reason.
Arguments UnableToFetch {SemVer} message.
Arguments NoPrebuiltBinary {SemVer} version.

(** A running language client is named by a number. *)
Definition ClientId := nat.

Inductive Event (SemVer : Type) : Type :=
| ShowErrorMessage (m : Message SemVer)
| ShowWarningMessage (m : Message SemVer)
| Download (installDir : string) (tarball shasum : LSPAny)
    (* downloadAndExtractArtifact("ZLS", "zls", installDir, tarball, shasum, [])
       has resolved *)
| ClientStarted (c : ClientId) (command : string) (args : list string)
    (* languageClient.start() has resolved *)
| FormattingFeatureDisposed (c : ClientId)
| ClientStopped (c : ClientId)
    (* client.stop() has resolved *)
| ClientDisposed (c : ClientId).
    (* client.dispose() has resolved *)
Arguments ShowErrorMessage {SemVer} m.
Arguments ShowWarningMessage {SemVer} m.
Arguments Download {SemVer} installDir tarball shasum.
Arguments ClientStarted {SemVer} c command args.
Arguments FormattingFeatureDisposed {SemVer} c.
Arguments ClientStopped {SemVer} c.
Arguments ClientDisposed {SemVer} c.

(** ** The configuration bridge: [configurationMiddleware] *)

Module Bridge.

Record ConfigurationItem : Type := {
  scopeUri : option string;
  section : option string;
}.

Record ResponseError : Type := {
  code : Z;
  message : string;
}.

(** What the bridge shows and writes while it merges the additional
    options. *)
Inductive UiEvent : Type :=
| ConflictPrompt (optionName : string)
    (* showWarningMessage(..., "Use <name> instead",
       "Show zig.zls.additionalOptions") *)
| ConfigurationUpdate (section : string) (value : LSPAny)
    (* configuration.update(section, value, true) *)
| OpenSettingsJson.
    (* executeCommand("workbench.action.openSettingsJson", ...) *)

(** The collaborators of one exchange. [configuration_get] is
    [configuration.get(section)] on the "zig.zls" configuration,
    [additionalOptions] the own properties of
    [configuration.get("additionalOptions", {})] in the order [for ... in]
    visits them, [has_default section] the test
    [configuration.inspect(section)?.defaultValue !== undefined],
    [getZigPath] what the call [getZigPath()] does, and
    [showWarningMessage name] the answer to the prompt about [name]. *)
Record Env : Type := {
  camelCase : string -> string;
  handleConfigOption : string -> string;
  next : list ConfigurationItem -> ResponseError + list LSPAny;
  configuration_get : string -> LSPAny;
  additionalOptions : list (string * LSPAny);
  has_default : string -> bool;
  getZigPath : Completion string;
  showWarningMessage : string -> option string;
}.

(** [optionIndices]: an object used as a map. Its keys are "zig.path" or
    start with "zig.zls.", so none is an array index and [for ... in]
    visits them in the order of their first assignment. *)
Definition OptionIndices : Type := list (string * nat).

(** [optionIndices[name] = index] *)
Fixpoint record_index (name : string) (index : nat) (m : OptionIndices) : OptionIndices :=
  match m with
  | [] => [(name, index)]
  | (k, i) :: rest =>
      if String.eqb k name then (k, index) :: rest
      else (k, i) :: record_index name index rest
  end.

(** What [optionIndices[name]] evaluates to. *)
Inductive IndexLookup : Type :=
| IsIndex (i : nat)
| IsInherited
| IsUndefined.

Definition optionIndices_get (m : OptionIndices) (name : string) : IndexLookup :=
  match own_property name m with
  | Some i => IsIndex i
  | None => if inherited name then IsInherited else IsUndefined
  end.

Section Middleware.

Context (E : Env).

Definition rewrite_section (s : string) : string :=
  if String.eqb s "zls.zig_exe_path" then "zig.path"
  else "zig.zls." +:+ camelCase E (slice 4 s).

(** The callback of [params.items.forEach]: it assigns to [param.section]
    and to [optionIndices]. *)
Definition visit_item (param : ConfigurationItem) (index : nat) (m : OptionIndices)
  : ConfigurationItem * OptionIndices :=
  match section param with
  | Some s =>
      if truthy_string s then
        let s' := rewrite_section s in
        ({| scopeUri := scopeUri param; section := Some s' |}, record_index s' index m)
      else (param, m)
  | None => (param, m)
  end.

Fixpoint forEach_items (items : list ConfigurationItem) (index : nat) (m : OptionIndices)
  : list ConfigurationItem * OptionIndices :=
  match items with
  | [] => ([], m)
  | param :: rest =>
      let '(param', m') := visit_item param index m in
      let '(rest', m'') := forEach_items rest (S index) m' in
      (param' :: rest', m'')
  end.

(** [for (const name in optionIndices)]: string values are normalized. *)
Fixpoint normalize_strings (entries : OptionIndices) (result : list LSPAny) : list LSPAny :=
  match entries with
  | [] => result
  | (name, index) :: rest =>
      let section := slice 8 name in
      match configuration_get E section with
      | VStr configValue =>
          if truthy_string configValue
          then normalize_strings rest (js_set index (VStr (handleConfigOption E configValue)) result)
          else normalize_strings rest result
      | _ => normalize_strings rest result
      end
  end.

(** The compiler path. With an inherited name the assignment would go to
    a property that is no slot of the array; "zig.path" is none. *)
Definition inject_zig_path (m : OptionIndices) (result : list LSPAny) : list LSPAny :=
  match optionIndices_get m "zig.path" with
  | IsIndex indexOfZigPath =>
      match getZigPath E with
      | Normal path => js_set indexOfZigPath (VStr path) result
      | Abrupt _ => js_set indexOfZigPath VNull result
      end
  | IsInherited => result
  | IsUndefined => result
  end.

Definition label_use (optionName : string) : string :=
  "Use " +:+ optionName +:+ " instead".
Definition label_show : string := "Show zig.zls.additionalOptions".

(** The rest object of
    [const { [optionName]: newValue, ...updatedAdditionalOptions }]. *)
Definition omit (optionName : string) (obj : list (string * LSPAny)) : list (string * LSPAny) :=
  filter (fun kv => negb (String.eqb kv.1 optionName)) obj.

(** The end of the loop body: [if (!optionIndex) continue;] and the
    assignment. An inherited name gives a truthy non-number: the
    assignment then sets a property that is no slot of the array. *)
Definition apply_option (m : OptionIndices) (optionName : string) (result : list LSPAny)
  : list LSPAny :=
  match optionIndices_get m optionName with
  | IsIndex O => result
  | IsIndex (S i) => js_set (S i) (js_prop optionName (additionalOptions E)) result
  | IsInherited => result
  | IsUndefined => result
  end.

(** One turn of [for (const optionName in additionalOptions)]. *)
Definition visit_option (m : OptionIndices) (optionName : string) (result : list LSPAny)
  : list LSPAny * list UiEvent :=
  let section := slice 8 optionName in
  if has_default E section then
    match showWarningMessage E optionName with
    | Some response =>
        if String.eqb response (label_use optionName) then
          (apply_option m optionName result,
           [ ConflictPrompt optionName;
             ConfigurationUpdate "additionalOptions" (VObj (omit optionName (additionalOptions E)));
             ConfigurationUpdate section (js_prop optionName (additionalOptions E)) ])
        else if String.eqb response label_show then
          (result, [ConflictPrompt optionName; OpenSettingsJson])
        else (apply_option m optionName result, [ConflictPrompt optionName])
    | None => (result, [ConflictPrompt optionName])
    end
  else (apply_option m optionName result, []).

Fixpoint merge_additional (m : OptionIndices) (names : list string) (result : list LSPAny)
  : list LSPAny * list UiEvent :=
  match names with
  | [] => (result, [])
  | optionName :: rest =>
      let '(result', evs) := visit_option m optionName result in
      let '(result'', evs') := merge_additional m rest result' in
      (result'', evs ++ evs')
  end.

(** What one call leaves behind: the items as sent on (the call assigns
    to them in place), the value the promise resolves to, and the
    prompts and writes in their order. *)
Record Outcome : Type := {
  sent : list ConfigurationItem;
  response : ResponseError + list LSPAny;
  events : list UiEvent;
}.

Definition configurationMiddleware (items : list ConfigurationItem) : Outcome :=
  let '(items', optionIndices) := forEach_items items 0 [] in
  match next E items' with
  | inl err => {| sent := items'; response := inl err; events := [] |}
  | inr result =>
      let result1 := normalize_strings optionIndices result in
      let result2 := inject_zig_path optionIndices result1 in
      let '(result3, evs) :=
        merge_additional optionIndices (map fst (additionalOptions E)) result2 in
      {| sent := items'; response := inr result3; events := evs |}
  end.

(** *** Reading the index map

    Definitions that the statements about the index map use; the source
    has no counterpart of them. *)

(** The name an item is sent on under, when the callback rewrites it. *)
Definition rewritten_name (param : ConfigurationItem) : option string :=
  match section param with
  | Some s => if truthy_string s then Some (rewrite_section s) else None
  | None => None
  end.

(** The last index at or after [index] whose item is sent on under
    [name], [acc] when there is none. *)
Fixpoint last_named (name : string) (items : list ConfigurationItem) (index : nat)
    (acc : option nat) : option nat :=
  match items with
  | [] => acc
  | param :: rest =>
      last_named name rest (S index)
        (if bool_decide (rewritten_name param = Some name) then Some index else acc)
  end.

(** The index map and the items sent on, as [configurationMiddleware]
    computes them. *)
Definition recorded_indices (items : list ConfigurationItem) : OptionIndices :=
  (forEach_items items 0 []).2.

Definition sent_items (items : list ConfigurationItem) : list ConfigurationItem :=
  (forEach_items items 0 []).1.

(** *** Reading the response slot by slot

    The passes of the source run over the index map and over the
    additional options. The definitions below tell the same by the slot:
    what becomes of the slot of an item that is sent on under [name], and
    what one entry of the additional options shows and writes. The source
    has no counterpart of them; the statements compare them with
    [configurationMiddleware]. *)

(** The slot after normalization and injection: the compiler path (null
    when its discovery throws) under "zig.path", the normalized setting
    when the setting is a non-empty string, and otherwise [fromNext],
    what the continuation returned. *)
Definition before_options (name : string) (fromNext : LSPAny) : LSPAny :=
  if String.eqb name "zig.path" then
    match getZigPath E with
    | Normal path => VStr path
    | Abrupt _ => VNull
    end
  else
    match configuration_get E (slice 8 name) with
    | VStr configValue =>
        if truthy_string configValue then VStr (handleConfigOption E configValue)
        else fromNext
    | _ => fromNext
    end.

(** Whether the entry [optionName] of the additional options is let
    through to the response: always when no setting is declared under its
    name, and otherwise unless the prompt was dismissed or answered "Show
    zig.zls.additionalOptions". *)
Definition let_through (optionName : string) : bool :=
  if has_default E (slice 8 optionName) then
    match showWarningMessage E optionName with
    | Some response => negb (String.eqb response label_show)
    | None => false
    end
  else true.

(** The slot after all three passes: the value of the additional option
    of that name when there is one and it is let through. *)
Definition post_processed (name : string) (fromNext : LSPAny) : LSPAny :=
  if bool_decide (name ∈ (additionalOptions E).*1) && let_through name
  then js_prop name (additionalOptions E)
  else before_options name fromNext.

(** The conflict path of one entry of the additional options: nothing
    when no setting is declared under its name; otherwise the prompt,
    followed on the answer "Use ... instead" by the migration (the write
    of the additional options, [rest] being what is written, and the write
    of the value under the declared name) and on "Show ..." by the opening
    of the settings. *)
Definition conflict_path (optionName : string) (rest : LSPAny) : list UiEvent :=
  if has_default E (slice 8 optionName) then
    ConflictPrompt optionName ::
    match showWarningMessage E optionName with
    | Some response =>
        if String.eqb response (label_use optionName) then
          [ ConfigurationUpdate "additionalOptions" rest;
            ConfigurationUpdate (slice 8 optionName) (js_prop optionName (additionalOptions E)) ]
        else if String.eqb response label_show then [OpenSettingsJson]
        else []
    | None => []
    end
  else [].

End Middleware.

End Bridge.

(** ** The semver package and the host *)

(** What the source uses of a [semver.SemVer]: [v.raw],
    [new semver.SemVer(x)], which throws on what is no version, and
    [a.compare(b)], which is [0] when the two have the same precedence. *)
Class SemVerLib (SemVer : Type) : Type := {
  raw : SemVer -> string;
  SemVer_new : LSPAny -> Completion SemVer;
  compare : SemVer -> SemVer -> Z;
}.

(** The body of a select-version response: the own properties of a JSON
    object. *)
Definition Response : Type := list (string * LSPAny).

(** The setting "zig.zls.enabled". *)
Inductive Enabled : Type := ask | off | on.

Definition is_on (e : Enabled) : bool :=
  match e with on => true | _ => false end.

(** A string setting that may be unset: falsy when unset or empty. *)
Definition truthy_setting (s : option string) : bool :=
  match s with Some s => truthy_string s | None => false end.

(** [v.key] for a value [v]: a [TypeError] on [null] and [undefined]. *)
Definition member (key : string) (v : LSPAny) : Completion LSPAny :=
  match v with
  | VUndefined | VNull => Abrupt (ThrownError "Cannot read properties")
  | VObj props => Normal (js_prop key props)
  | _ => Normal VUndefined
  end.

(** The calls that leave [zls.ts], one field each. [None] of an
    [option Thrown] is a call that returned or a promise that resolved.
    The fields say what a call gives back to [zls.ts]; what a callee such
    as [getZigPath] shows to the user on its own, before it returns or
    throws, is not recorded. *)
Record Host (SemVer : Type) : Type := {
  config_path : option string;            (* configuration.get<string>("path") *)
  config_enabled : Enabled;               (* configuration.get("enabled", "ask") *)
  config_debugLog : bool;                 (* configuration.get<boolean>("debugLog", false) *)
  host_getZigPath : Completion string;         (* getZigPath() *)
  getVersion : string -> string -> option SemVer;
  getHostZigName : string;
  downloadAndExtractArtifact : string -> LSPAny -> LSPAny -> option Thrown;
  is_win32 : bool;                        (* process.platform === "win32" *)
  existsSync : string -> bool;
  globalStorageUri : string;
  joinPath : string -> list string -> string;   (* vscode.Uri.joinPath *)
  fsPath : string -> string;
  axios_get : string -> Completion Response;    (* the query for a zig_version *)
  client_start : ClientId -> string -> list string -> option Thrown;
  formatting_dispose : ClientId -> option Thrown;
  client_stop : ClientId -> option Thrown;
  client_dispose : ClientId -> option Thrown;
}.
Arguments config_path {SemVer} _.
Arguments config_enabled {SemVer} _.
Arguments config_debugLog {SemVer} _.
Arguments host_getZigPath {SemVer} _.
Arguments getVersion {SemVer} _ _ _.
Arguments getHostZigName {SemVer} _.
Arguments downloadAndExtractArtifact {SemVer} _ _ _ _.
Arguments is_win32 {SemVer} _.
Arguments existsSync {SemVer} _ _.
Arguments globalStorageUri {SemVer} _.
Arguments joinPath {SemVer} _ _ _.
Arguments fsPath {SemVer} _ _.
Arguments axios_get {SemVer} _ _.
Arguments client_start {SemVer} _ _ _ _.
Arguments formatting_dispose {SemVer} _ _.
Arguments client_stop {SemVer} _ _.
Arguments client_dispose {SemVer} _ _.

(** ** State and effects *)

(** What [zls.ts] keeps between calls: the persisted store
    [context.globalState], the module variable [client], and how many
    [LanguageClient]s were made (the next one is named by that number). *)
Record World : Type := {
  globalState : gmap string Response;
  client : option ClientId;
  spawned : nat;
}.

Module Effect.

Section Monad.

Context {SemVer : Type}.

(** An [async] function: from a world to how it completes, the world it
    leaves and the events on the way. *)
Definition M (A : Type) : Type :=
  World -> Completion A * World * list (Event SemVer).

Definition ret {A : Type} (a : A) : M A := fun w => (Normal a, w, []).

Definition throw {A : Type} (t : Thrown) : M A := fun w => (Abrupt t, w, []).

Definition bind {A B : Type} (c : M A) (k : A -> M B) : M B :=
  fun w =>
    match c w with
    | (Normal a, w', evs) => let '(r, w'', evs') := k a w' in (r, w'', evs ++ evs')
    | (Abrupt t, w', evs) => (Abrupt t, w', evs)
    end.

(** [try { c } catch (err) { h err }] *)
Definition try_catch {A : Type} (c : M A) (h : Thrown -> M A) : M A :=
  fun w =>
    match c w with
    | (Normal a, w', evs) => (Normal a, w', evs)
    | (Abrupt t, w', evs) => let '(r, w'', evs') := h t w' in (r, w'', evs ++ evs')
    end.

Definition emit (ev : Event SemVer) : M unit := fun w => (Normal tt, w, [ev]).

(** A call of the host that returns or throws. *)
Definition call {A : Type} (r : Completion A) : M A := fun w => (r, w, []).

(** A call of the host that resolves, leaving [ev], or throws. *)
Definition perform (r : option Thrown) (ev : Event SemVer) : M unit :=
  match r with
  | None => emit ev
  | Some t => throw t
  end.

Definition globalState_get (key : string) : M (option Response) :=
  fun w => (Normal (globalState w !! key), w, []).

Definition globalState_update (key : string) (value : Response) : M unit :=
  fun w => (Normal tt,
            {| globalState := <[key:=value]> (globalState w);
               client := client w; spawned := spawned w |}, []).

Definition get_client : M (option ClientId) := fun w => (Normal (client w), w, []).

Definition set_client (c : option ClientId) : M unit :=
  fun w => (Normal tt,
            {| globalState := globalState w; client := c; spawned := spawned w |}, []).

(** [new LanguageClient(...)]: the next name. *)
Definition new_client : M ClientId :=
  fun w => (Normal (spawned w),
            {| globalState := globalState w; client := client w; spawned := S (spawned w) |},
            []).

(** Events of the language client, and a computation that has none and
    leaves [client] and the count of clients as they were. *)
Definition is_client_event (ev : Event SemVer) : bool :=
  match ev with
  | ClientStarted _ _ _ | FormattingFeatureDisposed _
  | ClientStopped _ | ClientDisposed _ => true
  | _ => false
  end.

Definition quiet {A : Type} (c : M A) : Prop :=
  forall w r w' evs, c w = (r, w', evs) ->
    client w' = client w /\ spawned w' = spawned w /\
    Forall (fun ev => is_client_event ev = false) evs.

End Monad.

Global Arguments M : clear implicits.

Declare Scope effect_scope.
Delimit Scope effect_scope with effect.
Notation "x <- c ;; k" := (bind c (fun x => k))
  (at level 100, c at next level, right associativity) : effect_scope.
Notation "c ;;; k" := (bind c (fun _ => k))
  (at level 100, right associativity) : effect_scope.

End Effect.

(** ** The version resolver: [fetchVersion] *)

Module Resolver.
Import Effect.
Local Open Scope effect_scope.

Record FetchResult (SemVer : Type) : Type := {
  version : SemVer;
  artifact : LSPAny;
}.
Arguments version {SemVer} _.
Arguments artifact {SemVer} _.

Section Resolver.

Context {SemVer : Type} {SV : SemVerLib SemVer} (H : Host SemVer).

Definition cacheKey (zigVersion : SemVer) : string :=
  "zls-select-version-" +:+ raw zigVersion.

(** The [try] statement: the response to go on with, [None] when the
    handler has returned [null]. *)
Definition query (zigVersion : SemVer) (useCache : bool) : M SemVer (option Response) :=
  try_catch
    (response <- call (axios_get H (raw zigVersion)) ;;
     (if useCache then globalState_update (cacheKey zigVersion) response else ret tt) ;;;
     ret (Some response))
    (fun err =>
       response <- (if useCache then globalState_get (cacheKey zigVersion) else ret None) ;;
       match response with
       | Some response => ret (Some response)
       | None =>
           match err with
           | ThrownError message =>
               emit (ShowErrorMessage (FailedToQuery message)) ;;; ret None
           | ThrownOther _ => throw err
           end
       end).

(** What follows the [try] statement. *)
Definition select (response : Response) : M SemVer (option (FetchResult SemVer)) :=
  if js_in "message" response then
    emit (ShowErrorMessage (UnableToFetch (js_prop "message" response))) ;;; ret None
  else
    let hostName := getHostZigName H in
    if negb (js_in hostName response) then
      emit (ShowErrorMessage (NoPrebuiltBinary (js_prop "version" response))) ;;; ret None
    else
      v <- call (SemVer_new (js_prop "version" response)) ;;
      ret (Some {| version := v; artifact := js_prop hostName response |}).

Definition fetchVersion (zigVersion : SemVer) (useCache : bool)
  : M SemVer (option (FetchResult SemVer)) :=
  response <- query zigVersion useCache ;;
  match response with
  | Some response => select response
  | None => ret None
  end.

End Resolver.

End Resolver.

(** ** The binary locator and the version verifier: [getZLSPath] *)

Module Locator.
Import Effect.
Local Open Scope effect_scope.

Record Located (SemVer : Type) : Type := {
  exe : string;
  version : SemVer;
}.
Arguments exe {SemVer} _.
Arguments version {SemVer} _.

Section Locator.

Context {SemVer : Type} {SV : SemVerLib SemVer} (H : Host SemVer).

(** [getVersion(getZigPath(), "version")] inside its [try]: a throw
    returns [null] as a missing version does. *)
Definition zig_version : option SemVer :=
  match host_getZigPath H with
  | Normal zigPath => getVersion H zigPath "version"
  | Abrupt _ => None
  end.

Definition installDir (result : Resolver.FetchResult SemVer) : string :=
  joinPath H (globalStorageUri H) ["zls"; raw (Resolver.version result)].

Definition installed_exe (result : Resolver.FetchResult SemVer) : string :=
  fsPath H (joinPath H (installDir result) [if is_win32 H then "zls.exe" else "zls"]).

(** The [try] around [downloadAndExtractArtifact]: [true] when it went
    through. *)
Definition install (result : Resolver.FetchResult SemVer) : M SemVer bool :=
  try_catch
    (tarball <- call (member "tarball" (Resolver.artifact result)) ;;
     shasum <- call (member "shasum" (Resolver.artifact result)) ;;
     perform (downloadAndExtractArtifact H (installDir result) tarball shasum)
       (Download (installDir result) tarball shasum) ;;;
     ret true)
    (fun _ =>
       emit (ShowErrorMessage (FailedToInstall (Resolver.version result))) ;;; ret false).

(** The first half: the path to run and the version it is expected to
    report, [None] for [return null]. The expected version is that of
    the resolver's result; a configured path has none. *)
Definition resolve_exe : M SemVer (option (string * option SemVer)) :=
  if truthy_setting (config_path H) then
    ret (Some (default "" (config_path H), None))
  else if negb (is_on (config_enabled H)) then ret None
  else
    match zig_version with
    | None => ret None
    | Some zigVersion =>
        result <- Resolver.fetchVersion H zigVersion true ;;
        match result with
        | None => ret None
        | Some result =>
            let zlsExePath := installed_exe result in
            if existsSync H zlsExePath then
              ret (Some (zlsExePath, Some (Resolver.version result)))
            else
              ok <- install result ;;
              if ok then ret (Some (zlsExePath, Some (Resolver.version result)))
              else ret None
        end
    end.

(** The second half: the check of what the executable reports. *)
Definition check_version (zlsExePath : string) (zlsVersion : option SemVer)
  : M SemVer (option (Located SemVer)) :=
  match getVersion H zlsExePath "--version" with
  | None =>
      emit (ShowErrorMessage (UnableToCheckVersion zlsExePath)) ;;; ret None
  | Some checkedZLSVersion =>
      match zlsVersion with
      | Some expected =>
          if negb (Z.eqb (compare checkedZLSVersion expected) 0) then
            emit (ShowErrorMessage
                    (UnexpectedVersion expected zlsExePath checkedZLSVersion)) ;;;
            ret None
          else ret (Some {| exe := zlsExePath; version := checkedZLSVersion |})
      | None => ret (Some {| exe := zlsExePath; version := checkedZLSVersion |})
      end
  end.

Definition getZLSPath : M SemVer (option (Located SemVer)) :=
  resolved <- resolve_exe ;;
  match resolved with
  | None => ret None
  | Some (zlsExePath, zlsVersion) => check_version zlsExePath zlsVersion
  end.

End Locator.

End Locator.

(** ** The session lifecycle: [startClient], [stopClient], [restartClient] *)

Module Lifecycle.
Import Effect.
Local Open Scope effect_scope.

Section Lifecycle.

Context {SemVer : Type} {SV : SemVerLib SemVer} (H : Host SemVer).

Definition startClient (zlsPath : string) : M SemVer ClientId :=
  let args := if config_debugLog H then ["--enable-debug-log"] else [] in
  languageClient <- new_client ;;
  perform (client_start H languageClient zlsPath args)
    (ClientStarted languageClient zlsPath args) ;;;
  perform (formatting_dispose H languageClient)
    (FormattingFeatureDisposed languageClient) ;;;
  ret languageClient.

Definition stopClient : M SemVer unit :=
  current <- get_client ;;
  match current with
  | None => ret tt
  | Some c =>
      perform (client_stop H c) (ClientStopped c) ;;;
      perform (client_dispose H c) (ClientDisposed c) ;;;
      set_client None
  end.

Definition restartClient : M SemVer unit :=
  if negb (truthy_setting (config_path H)) && negb (is_on (config_enabled H)) then
    stopClient
  else
    result <- Locator.getZLSPath H ;;
    match result with
    | None => ret tt
    | Some result =>
        try_catch
          (newClient <- startClient (Locator.exe result) ;;
           stopClient ;;;
           set_client (Some newClient))
          (fun reason =>
             match reason with
             | ThrownError message => emit (ShowWarningMessage (FailedToRunWith message))
             | ThrownOther _ => emit (ShowWarningMessage FailedToRun)
             end)
    end.

(** The clients that are running after a run of events, from those that
    were running before it: a client runs from the moment its start has
    resolved to the moment its stop has. *)
Fixpoint live_after (evs : list (Event SemVer)) (live : list ClientId) : list ClientId :=
  match evs with
  | [] => live
  | ClientStarted c _ _ :: rest => live_after rest (c :: live)
  | ClientStopped c :: rest => live_after rest (filter (fun c' => c' <> c) live)
  | _ :: rest => live_after rest live
  end.

End Lifecycle.

End Lifecycle.

(** ** Concrete exchanges

    Environments and requests on which the statements below are run. *)

Module Fixtures.
Import Bridge.

(** A stand-in for the camelcase package on lower-case names with
    underscores: an underscore goes, the letter after it becomes a
    capital. *)
Definition upper (c : ascii) : ascii :=
  let n := Ascii.nat_of_ascii c in
  if (97 <=? n) && (n <=? 122) then Ascii.ascii_of_nat (n - 32) else c.

Fixpoint snake_to_camel (s : string) : string :=
  match s with
  | EmptyString => EmptyString
  | String c rest =>
      if Ascii.eqb c "_"%char then
        match rest with
        | EmptyString => EmptyString
        | String d rest' => String (upper d) (snake_to_camel rest')
        end
      else String c (snake_to_camel rest)
  end.

Definition item (s : string) : ConfigurationItem :=
  {| scopeUri := None; section := Some s |}.

(** A continuation that answers every item with [null]. *)
Definition all_null (items : list ConfigurationItem) : ResponseError + list LSPAny :=
  inr (map (fun _ => VNull) items).

(** A settings store with "zig.zls.zigLibPath" set to a string and
    "zig.zls.enableSnippets" declared with a default. *)
Definition base_env : Env := {|
  camelCase := snake_to_camel;
  handleConfigOption := fun s => s;
  next := all_null;
  configuration_get := fun s => if String.eqb s "zigLibPath" then VStr "/opt/zig/lib" else VUndefined;
  additionalOptions := [];
  has_default := fun s => String.eqb s "enableSnippets";
  getZigPath := Normal "/usr/bin/zig";
  showWarningMessage := fun _ => None;
|}.

Definition with_next (E : Env) (k : list ConfigurationItem -> ResponseError + list LSPAny) : Env :=
  {| camelCase := camelCase E; handleConfigOption := handleConfigOption E; next := k;
     configuration_get := configuration_get E; additionalOptions := additionalOptions E;
     has_default := has_default E; getZigPath := getZigPath E;
     showWarningMessage := showWarningMessage E |}.

Definition with_options (E : Env) (opts : list (string * LSPAny)) : Env :=
  {| camelCase := camelCase E; handleConfigOption := handleConfigOption E; next := next E;
     configuration_get := configuration_get E; additionalOptions := opts;
     has_default := has_default E; getZigPath := getZigPath E;
     showWarningMessage := showWarningMessage E |}.

Definition with_zig_path (E : Env) (r : Completion string) : Env :=
  {| camelCase := camelCase E; handleConfigOption := handleConfigOption E; next := next E;
     configuration_get := configuration_get E; additionalOptions := additionalOptions E;
     has_default := has_default E; getZigPath := r;
     showWarningMessage := showWarningMessage E |}.

Definition with_answers (E : Env) (answer : string -> option string) : Env :=
  {| camelCase := camelCase E; handleConfigOption := handleConfigOption E; next := next E;
     configuration_get := configuration_get E; additionalOptions := additionalOptions E;
     has_default := has_default E; getZigPath := getZigPath E;
     showWarningMessage := answer |}.

(** Three sections, the alias in the middle. *)
Definition three_items : list ConfigurationItem :=
  [item "zls.enable_snippets"; item "zls.zig_exe_path"; item "zls.zig_lib_path"].

(** A continuation that answers one value, whatever the request. *)
Definition one_value (_ : list ConfigurationItem) : ResponseError + list LSPAny :=
  inr [VBool true].

Definition short_env : Env := with_next base_env one_value.

Definition two_items : list ConfigurationItem :=
  [item "zls.enable_snippets"; item "zls.warn_style"].

(** The option "zig.zls.warnStyle" comes from the additional options;
    no setting of that name is declared. *)
Definition warn_style_env : Env :=
  with_options base_env [("zig.zls.warnStyle", VBool true)].

(** The additional options name a declared setting. *)
Definition conflict_env : Env :=
  with_options base_env [("zig.zls.enableSnippets", VNum 1)].

Definition failing (_ : list ConfigurationItem) : ResponseError + list LSPAny :=
  inl {| code := (-32603)%Z; message := "internal error" |}.

(** The additional options name the compiler path itself. *)
Definition override_env : Env :=
  with_options base_env [("zig.path", VStr "/opt/other/zig")].

(** Two additional options name declared settings, and the user answers
    "Use ... instead" to both prompts. *)
Definition two_conflicts_env : Env := {|
  camelCase := snake_to_camel;
  handleConfigOption := fun s => s;
  next := all_null;
  configuration_get := fun _ => VUndefined;
  additionalOptions := [("zig.zls.enableSnippets", VNum 1); ("zig.zls.warnStyle", VBool true)];
  has_default := fun s => String.eqb s "enableSnippets" || String.eqb s "warnStyle";
  getZigPath := Normal "/usr/bin/zig";
  showWarningMessage := fun name => Some (label_use name);
|}.

(** *** A host for the resolver, the locator and the lifecycle *)

(** A stand-in for the semver package: the versions of a fixed table,
    compared by their three numbers. *)
Record Version : Type := {
  text : string;
  numbers : nat * nat * nat;
}.

Definition v0_13_0 : Version := {| text := "0.13.0"; numbers := (0, 13, 0) |}.
Definition v0_12_1 : Version := {| text := "0.12.1"; numbers := (0, 12, 1) |}.

Definition known_versions : list (string * Version) :=
  [("0.13.0", v0_13_0); ("0.12.1", v0_12_1)].

Definition compare_numbers (a b : nat * nat * nat) : Z :=
  let '(a1, a2, a3) := a in
  let '(b1, b2, b3) := b in
  match Nat.compare a1 b1 with
  | Lt => (-1)%Z | Gt => 1%Z
  | Eq =>
      match Nat.compare a2 b2 with
      | Lt => (-1)%Z | Gt => 1%Z
      | Eq => match Nat.compare a3 b3 with Lt => (-1)%Z | Gt => 1%Z | Eq => 0%Z end
      end
  end.

#[global] Instance table_semver : SemVerLib Version := {|
  raw := text;
  SemVer_new := fun v =>
    match v with
    | VStr s =>
        match own_property s known_versions with
        | Some x => Normal x
        | None => Abrupt (ThrownError "Invalid Version")
        end
    | _ => Abrupt (ThrownError "Invalid version. Must be a string.")
    end;
  compare := fun a b => compare_numbers (numbers a) (numbers b);
|}.

Definition linux_artifact : LSPAny :=
  VObj [("tarball", VStr "https://builds.zigtools.org/zls-linux-x86_64-0.13.0.tar.xz");
        ("shasum", VStr "ec4c1b45caf88e2bcb9ebb16c670603cc596e4f621b96184dfbe837b39cd8410");
        ("size", VStr "3434432")].

Definition success_payload : Response :=
  [("version", VStr "0.13.0"); ("date", VStr "2024-06-09"); ("x86_64-linux", linux_artifact)].

Definition failure_payload : Response :=
  [("code", VNum 2); ("message", VStr "Zig 0.9.0 is not supported by ZLS")].

Definition slash_join (base : string) (segments : list string) : string :=
  foldl (fun acc seg => acc +:+ "/" +:+ seg) base segments.

(** Auto-install is on, the compiler is 0.13.0, the service answers with
    a build for this platform, and the installed server reports
    [reported]. *)
Definition auto_host (reported : option Version) : Host Version := {|
  config_path := None;
  config_enabled := on;
  config_debugLog := false;
  host_getZigPath := Normal "/usr/bin/zig";
  getVersion := fun path arg =>
    if String.eqb path "/usr/bin/zig" && String.eqb arg "version" then Some v0_13_0
    else if String.eqb path "/storage/zls/0.13.0/zls" && String.eqb arg "--version"
         then reported
    else None;
  getHostZigName := "x86_64-linux";
  downloadAndExtractArtifact := fun _ _ _ => None;
  is_win32 := false;
  existsSync := fun _ => false;
  globalStorageUri := "/storage";
  joinPath := slash_join;
  fsPath := fun uri => uri;
  axios_get := fun _ => Normal success_payload;
  client_start := fun _ _ _ => None;
  formatting_dispose := fun _ => None;
  client_stop := fun _ => None;
  client_dispose := fun _ => None;
|}.

(** The user has set "zig.zls.path"; the executable there reports
    [reported]. *)
Definition override_host (reported : option Version) : Host Version := {|
  config_path := Some "/home/me/zls/zig-out/bin/zls";
  config_enabled := off;
  config_debugLog := false;
  host_getZigPath := Normal "/usr/bin/zig";
  getVersion := fun path arg =>
    if String.eqb path "/home/me/zls/zig-out/bin/zls" && String.eqb arg "--version"
    then reported else None;
  getHostZigName := "x86_64-linux";
  downloadAndExtractArtifact := fun _ _ _ => None;
  is_win32 := false;
  existsSync := fun _ => false;
  globalStorageUri := "/storage";
  joinPath := slash_join;
  fsPath := fun uri => uri;
  axios_get := fun _ => Normal success_payload;
  client_start := fun _ _ _ => None;
  formatting_dispose := fun _ => None;
  client_stop := fun _ => None;
  client_dispose := fun _ => None;
|}.

(** The same hosts with another answer of the service, or another way
    for the new client to start. *)
Definition with_service (H : Host Version) (answer : Completion Response) : Host Version := {|
  config_path := config_path H; config_enabled := config_enabled H;
  config_debugLog := config_debugLog H; host_getZigPath := host_getZigPath H;
  getVersion := getVersion H; getHostZigName := getHostZigName H;
  downloadAndExtractArtifact := downloadAndExtractArtifact H; is_win32 := is_win32 H;
  existsSync := existsSync H; globalStorageUri := globalStorageUri H;
  joinPath := joinPath H; fsPath := fsPath H;
  axios_get := fun _ => answer;
  client_start := client_start H; formatting_dispose := formatting_dispose H;
  client_stop := client_stop H; client_dispose := client_dispose H;
|}.

Definition with_start (H : Host Version) (outcome : option Thrown) : Host Version := {|
  config_path := config_path H; config_enabled := config_enabled H;
  config_debugLog := config_debugLog H; host_getZigPath := host_getZigPath H;
  getVersion := getVersion H; getHostZigName := getHostZigName H;
  downloadAndExtractArtifact := downloadAndExtractArtifact H; is_win32 := is_win32 H;
  existsSync := existsSync H; globalStorageUri := globalStorageUri H;
  joinPath := joinPath H; fsPath := fsPath H;
  axios_get := axios_get H;
  client_start := fun _ _ _ => outcome; formatting_dispose := formatting_dispose H;
  client_stop := client_stop H; client_dispose := client_dispose H;
|}.

(** Nothing persisted, no client yet. *)
Definition fresh_world : World :=
  {| globalState := ∅; client := None; spawned := 0 |}.

(** Client 0 is running. *)
Definition running_world : World :=
  {| globalState := ∅; client := Some 0; spawned := 1 |}.

(** The network is down. *)
Definition offline_host : Host Version :=
  with_service (auto_host None)
    (Abrupt (ThrownError "getaddrinfo ENOTFOUND releases.zigtools.org")).

(** The request is rejected with a value that is no [Error]. *)
Definition cancelled_host : Host Version :=
  with_service (auto_host None) (Abrupt (ThrownOther (VStr "cancelled"))).

(** The service has no build for this compiler. *)
Definition unsupported_host : Host Version :=
  with_service (auto_host None) (Normal failure_payload).

(** An earlier answer of the service is persisted. *)
Definition cached_world : World :=
  {| globalState := {[ "zls-select-version-0.13.0" := success_payload ]};
     client := None; spawned := 0 |}.

End Fixtures.

(** ** Asking whether to enable the server: [isEnabled] *)

Module Enable.

(** What [isEnabled] shows and writes. *)
Inductive SettingsEvent : Type :=
| AskToInstall
    (* showInformationMessage("We recommend enabling ...", { modal: true },
       "Yes", "No") *)
| UpdateEnabled (value : Enabled).
    (* zlsConfig.update("enabled", value) *)

(** [isEnabled], with [answer] the answer to the prompt. The value is
    the truth of what the promise resolves to: with an answer that is
    neither item the [switch] is left without a [return]. *)
Definition isEnabled {SemVer : Type} (H : Host SemVer) (answer : option string)
  : bool * list SettingsEvent :=
  if truthy_setting (config_path H) then (true, [])
  else
    match config_enabled H with
    | on => (true, [])
    | off => (false, [])
    | ask =>
        match answer with
        | Some response =>
            if String.eqb response "Yes" then (true, [AskToInstall; UpdateEnabled on])
            else if String.eqb response "No" then (false, [AskToInstall; UpdateEnabled off])
            else (false, [AskToInstall])
        | None => (false, [AskToInstall])
        end
    end.

End Enable.

(** ** The code lenses and the run command: [zigMainCodeLens] *)

Module Editor.

(** A JavaScript string as its UTF-16 code units: the regular
    expressions of this file look at single units. *)
Definition JsString : Type := list N.

Definition units (s : string) : JsString :=
  map N_of_ascii (String.list_ascii_of_string s).
Global Arguments units : simpl never.

Definition quote : N := 34.
Definition backslash : N := 92.

(** The class of [escapePath]: the double quote, the space and the
    characters of the literal below. *)
Definition special : JsString := quote :: units " !#$&'()*,;:<>?[\]^`{|}".

Definition is_special (c : N) : bool := existsb (N.eqb c) special.

(** [rawPath.replaceAll(...)]: every double quote becomes quote,
    backslash, quote, quote. *)
Fixpoint replaceAll_quote (s : JsString) : JsString :=
  match s with
  | [] => []
  | c :: rest =>
      if N.eqb c quote then quote :: backslash :: quote :: quote :: replaceAll_quote rest
      else c :: replaceAll_quote rest
  end.

Definition escapePath (rawPath : JsString) : JsString :=
  if existsb is_special rawPath then quote :: replaceAll_quote rawPath ++ [quote]
  else rawPath.

(** *** The pattern of [provideCodeLenses] *)

(** [\s]: the white space and line terminators of ECMAScript. *)
Definition is_white_space (c : N) : bool :=
  existsb (N.eqb c)
    [9; 10; 11; 12; 13; 32; 160; 5760; 8232; 8233; 8239; 8287; 12288; 65279]%N
  || (8192 <=? c)%N && (c <=? 8202)%N.

(** A literal at the head of a string: what follows it. *)
Fixpoint strip (literal s : JsString) : option JsString :=
  match literal, s with
  | [], _ => Some s
  | l :: literal', c :: s' => if N.eqb l c then strip literal' s' else None
  | _ :: _, [] => None
  end.
Global Arguments strip : simpl never.

(** The white space at the head of a string, all of it: how much, and
    what follows. *)
Fixpoint skip_white (s : JsString) : nat * JsString :=
  match s with
  | c :: rest =>
      if is_white_space c then let '(n, rest') := skip_white rest in (S n, rest')
      else (0, s)
  | [] => (0, [])
  end.
Global Arguments skip_white : simpl never.

(** [/pub\s+fn\s+main\s*\(/] at the head of a string: the length of the
    match. What follows a run of white space in the pattern is no white
    space, so a run is matched whole or the match fails. *)
Definition match_main (s : JsString) : option nat :=
  r1 ← strip (units "pub") s;
  let '(n1, r2) := skip_white r1 in
  if Nat.eqb n1 0 then None else
  r3 ← strip (units "fn") r2;
  let '(n2, r4) := skip_white r3 in
  if Nat.eqb n2 0 then None else
  r5 ← strip (units "main") r4;
  let '(n3, r6) := skip_white r5 in
  _ ← strip (units "(") r6;
  Some (3 + n1 + 2 + n2 + 4 + n3 + 1).

(** The loop [while ((match = mainRegex.exec(text)))] of a global
    pattern: the indices of the matches. A search starts where the last
    match ended; [skip] is how far that is from here. *)
Fixpoint exec_loop (s : JsString) (index skip : nat) : list nat :=
  match s with
  | [] => []
  | _ :: rest =>
      match skip with
      | S skip' => exec_loop rest (S index) skip'
      | O =>
          match match_main s with
          | Some len => index :: exec_loop rest (S index) (len - 1)
          | None => exec_loop rest (S index) 0
          end
      end
  end.

Record TextDocument : Type := {
  getText : JsString;
  fsPath : JsString;                     (* document.uri.fsPath *)
  positionAt : nat -> nat * nat;
}.

Record CodeLens : Type := {
  range : (nat * nat) * (nat * nat);
  title : string;
  command : string;
  arguments : list JsString;
}.

Definition lenses_at (document : TextDocument) (index : nat) : list CodeLens :=
  let position := positionAt document index in
  [ {| range := (position, position); title := "Run"; command := "zig.run";
       arguments := [fsPath document] |};
    {| range := (position, position); title := "Debug"; command := "zig.debug";
       arguments := [fsPath document] |} ].

Definition provideCodeLenses (document : TextDocument) : list CodeLens :=
  concat (map (lenses_at document) (exec_loop (getText document) 0 0)).

(** *** [zigRun] *)

(** What [zigRun] reads of the editor. *)
Record Workbench : Type := {
  activeTextEditor : option JsString;    (* the fsPath of the active document *)
  provider_getZigPath : option JsString; (* zigProvider.getZigPath(): string | null *)
  shell : JsString;                      (* vscode.env.shell *)
  getWorkspaceFolder : JsString -> option JsString;   (* ...?.uri.fsPath *)
  isWorkspaceFile : JsString -> bool;
  path_join : JsString -> JsString -> JsString;
  existsSync : JsString -> bool;
}.

Inductive TerminalEvent : Type :=
| CreateTerminal (name : string)
| TerminalShow
| SendText (text : JsString).

(** One place of a pattern: a unit, or [.], any unit but a line
    terminator. *)
Inductive Place : Type := Unit (c : N) | Dot.

Definition place_matches (p : Place) (c : N) : bool :=
  match p with
  | Unit d => N.eqb c d
  | Dot => negb (existsb (N.eqb c) [10; 13; 8232; 8233]%N)
  end.

Fixpoint matches_all (pattern : list Place) (s : JsString) : bool :=
  match pattern, s with
  | [], [] => true
  | p :: pattern', c :: s' => place_matches p c && matches_all pattern' s'
  | _, _ => false
  end.

(** [pattern$] somewhere in [s]: the end of [s] matches. *)
Definition ends_with (pattern : list Place) (s : JsString) : bool :=
  matches_all pattern (drop (length s - length pattern) s).

Definition word (s : string) : list Place := map Unit (units s).

(** [/(powershell.exe$|powershell$|pwsh.exe$|pwsh$)/.test(shell)] *)
Definition is_powershell (shell : JsString) : bool :=
  ends_with (word "powershell" ++ Dot :: word "exe") shell
  || ends_with (word "powershell") shell
  || ends_with (word "pwsh" ++ Dot :: word "exe") shell
  || ends_with (word "pwsh") shell.

Definition hasBuildFile (W : Workbench) (workspaceFspath : JsString) : bool :=
  existsSync W (path_join W workspaceFspath (units "build.zig")).

Definition zigRun (W : Workbench) : list TerminalEvent :=
  match activeTextEditor W with
  | None => []
  | Some filePath =>
      match provider_getZigPath W with
      | None | Some [] => []
      | Some zigPath =>
          let callOperator := if is_powershell (shell W) then units "& " else [] in
          let in_project :=
            match getWorkspaceFolder W filePath with
            | Some wsFolder => isWorkspaceFile W filePath && hasBuildFile W wsFolder
            | None => false
            end in
          [ CreateTerminal "Run Zig Program"; TerminalShow;
            SendText
              (if in_project
               then callOperator ++ escapePath zigPath ++ units " build run"
               else callOperator ++ escapePath zigPath ++ units " run "
                      ++ escapePath filePath) ]
      end
  end.

End Editor.

(** ** More concrete hosts and exchanges *)

Module MoreFixtures.
Import Bridge Fixtures.

(** The same exchange without additional options. *)
Definition without_options (E : Env) : Env := with_options E [].

(** The user answers "Use ... instead" to every prompt. *)
Definition migrating_env : Env :=
  with_answers (with_options base_env
                  [("zig.zls.warnStyle", VBool true); ("zig.zls.enableSnippets", VNum 1)])
    (fun name => Some (label_use name)).

Definition snippets_then_style : list ConfigurationItem :=
  [item "zls.warn_style"; item "zls.enable_snippets"].

(** The server is switched off and no path is set. *)
Definition disabled_host : Host Version := {|
  config_path := None;
  config_enabled := off;
  config_debugLog := false;
  host_getZigPath := Normal "/usr/bin/zig";
  getVersion := fun _ _ => None;
  getHostZigName := "x86_64-linux";
  downloadAndExtractArtifact := fun _ _ _ => None;
  is_win32 := false;
  existsSync := fun _ => false;
  globalStorageUri := "/storage";
  joinPath := slash_join;
  fsPath := fun uri => uri;
  axios_get := fun _ => Normal success_payload;
  client_start := fun _ _ _ => None;
  formatting_dispose := fun _ => None;
  client_stop := fun _ => None;
  client_dispose := fun _ => None;
|}.

(** The hosts of [Fixtures] with one call answering otherwise. *)
Definition with_download (H : Host Version) (outcome : option Thrown) : Host Version := {|
  config_path := config_path H; config_enabled := config_enabled H;
  config_debugLog := config_debugLog H; host_getZigPath := host_getZigPath H;
  getVersion := getVersion H; getHostZigName := getHostZigName H;
  downloadAndExtractArtifact := fun _ _ _ => outcome; is_win32 := is_win32 H;
  existsSync := existsSync H; globalStorageUri := globalStorageUri H;
  joinPath := joinPath H; fsPath := fsPath H;
  axios_get := axios_get H;
  client_start := client_start H; formatting_dispose := formatting_dispose H;
  client_stop := client_stop H; client_dispose := client_dispose H;
|}.

Definition with_stop (H : Host Version) (stop dispose : option Thrown) : Host Version := {|
  config_path := config_path H; config_enabled := config_enabled H;
  config_debugLog := config_debugLog H; host_getZigPath := host_getZigPath H;
  getVersion := getVersion H; getHostZigName := getHostZigName H;
  downloadAndExtractArtifact := downloadAndExtractArtifact H; is_win32 := is_win32 H;
  existsSync := existsSync H; globalStorageUri := globalStorageUri H;
  joinPath := joinPath H; fsPath := fsPath H;
  axios_get := axios_get H;
  client_start := client_start H; formatting_dispose := formatting_dispose H;
  client_stop := fun _ => stop; client_dispose := fun _ => dispose;
|}.

(** A source file with two entry points, and a workbench that has it
    open in a project with a build file, under PowerShell. *)
Definition two_mains : Editor.JsString :=
  Editor.units "pub fn main() void {}  pub   fn  main (".

Definition sample_document : Editor.TextDocument := {|
  Editor.getText := two_mains;
  Editor.fsPath := Editor.units "/home/me/app/src/main.zig";
  Editor.positionAt := fun offset => (0, offset);
|}.

Definition sample_workbench : Editor.Workbench := {|
  Editor.activeTextEditor := Some (Editor.units "/home/me/my app/src/main.zig");
  Editor.provider_getZigPath := Some (Editor.units "/usr/bin/zig");
  Editor.shell := Editor.units "C:\Program Files\PowerShell\7\pwsh.exe";
  Editor.getWorkspaceFolder := fun _ => None;
  Editor.isWorkspaceFile := fun _ => false;
  Editor.path_join := fun a b => a ++ Editor.units "/" ++ b;
  Editor.existsSync := fun _ => false;
|}.

End MoreFixtures.

(** ** Arrays and objects *)

Module JsFacts.

Lemma js_set_length_in_range (i : nat) (v : LSPAny) (arr : list LSPAny) :
  i < length arr -> length (js_set i v arr) = length arr.
Proof.
  intros Hi. unfold js_set. destruct (decide (i < length arr)); [|lia].
  apply length_insert.
Qed.

Lemma js_set_length (i : nat) (v : LSPAny) (arr : list LSPAny) :
  length (js_set i v arr) = Nat.max (length arr) (S i).
Proof.
  unfold js_set. destruct (decide (i < length arr)).
  - rewrite length_insert. lia.
  - rewrite !length_app, length_replicate. simpl. lia.
Qed.

Lemma js_get_set_eq (i : nat) (v : LSPAny) (arr : list LSPAny) :
  js_get (js_set i v arr) i = v.
Proof.
  unfold js_get, js_set. destruct (decide (i < length arr)).
  - by rewrite list_lookup_insert_eq.
  - rewrite lookup_app_r by lia.
    rewrite lookup_app_r by (rewrite length_replicate; lia).
    rewrite length_replicate. by replace (i - length arr - (i - length arr)) with 0 by lia.
Qed.

Lemma js_get_set_ne (i j : nat) (v : LSPAny) (arr : list LSPAny) :
  i <> j -> js_get (js_set i v arr) j = js_get arr j.
Proof.
  intros Hne. unfold js_get, js_set. destruct (decide (i < length arr)).
  - by rewrite list_lookup_insert_ne.
  - destruct (decide (j < length arr)) as [Hj|Hj].
    + by rewrite lookup_app_l.
    + rewrite (lookup_ge_None_2 arr j) by lia.
      rewrite lookup_app_r by lia.
      destruct (decide (j - length arr < i - length arr)) as [Hlt|Hge].
      * rewrite lookup_app_l by (rewrite length_replicate; lia).
        by rewrite lookup_replicate_2.
      * rewrite lookup_ge_None_2; [done|].
        rewrite length_app, length_replicate. simpl. lia.
Qed.

Lemma lookup_js_get (arr : list LSPAny) (i : nat) (v : LSPAny) :
  arr !! i = Some v -> js_get arr i = v.
Proof. intros H. unfold js_get. by rewrite H. Qed.

Lemma own_property_elem_of {A : Type} (key : string) (obj : list (string * A)) (v : A) :
  own_property key obj = Some v -> (key, v) ∈ obj.
Proof.
  induction obj as [|[k x] rest IH]; simpl; [done|].
  destruct (String.eqb_spec k key) as [->|Hne].
  - intros [= ->]. apply list_elem_of_here.
  - intros H. apply list_elem_of_further. auto.
Qed.

Lemma elem_of_own_property {A : Type} (key : string) (obj : list (string * A)) (v : A) :
  NoDup obj.*1 -> (key, v) ∈ obj -> own_property key obj = Some v.
Proof.
  induction obj as [|[k x] rest IH]; simpl.
  - intros _ H. by apply not_elem_of_nil in H.
  - intros Hnd Hin. apply NoDup_cons in Hnd as [Hk Hnd].
    apply elem_of_cons in Hin as [[= <- <-]|Hin].
    + by rewrite String.eqb_refl.
    + destruct (String.eqb_spec k key) as [->|Hne]; [|auto].
      exfalso. apply Hk. apply list_elem_of_fmap. by exists (key, v).
Qed.

Lemma own_property_None {A : Type} (key : string) (obj : list (string * A)) :
  own_property key obj = None <-> key ∉ obj.*1.
Proof.
  induction obj as [|[k x] rest IH]; simpl.
  - split; [intros _; apply not_elem_of_nil | done].
  - destruct (String.eqb_spec k key) as [->|Hne].
    + split; [done|]. intros H. exfalso. apply H. apply list_elem_of_here.
    + rewrite IH, not_elem_of_cons.
      split; [intros H; split; [congruence|done] | by intros [_ H]].
Qed.

End JsFacts.

(** ** The index map of the bridge *)

Module BridgeFacts.
Import Bridge JsFacts.

Lemma own_record_index_eq (name : string) (index : nat) (m : OptionIndices) :
  own_property name (record_index name index m) = Some index.
Proof.
  induction m as [|[k i] rest IH]; simpl.
  - by rewrite String.eqb_refl.
  - destruct (String.eqb_spec k name) as [->|Hne]; simpl.
    + by rewrite String.eqb_refl.
    + by destruct (String.eqb_spec k name).
Qed.

Lemma own_record_index_ne (name key : string) (index : nat) (m : OptionIndices) :
  name <> key ->
  own_property key (record_index name index m) = own_property key m.
Proof.
  intros Hne. induction m as [|[k i] rest IH]; simpl.
  - by destruct (String.eqb_spec name key).
  - destruct (String.eqb_spec k name) as [->|Hk]; simpl.
    + by destruct (String.eqb_spec name key).
    + by rewrite IH.
Qed.

Lemma record_index_keys (name : string) (index : nat) (m : OptionIndices) :
  (record_index name index m).*1 =
  if bool_decide (name ∈ m.*1) then m.*1 else m.*1 ++ [name].
Proof.
  induction m as [|[k i] rest IH].
  - destruct (bool_decide_reflect (name ∈ ([] : OptionIndices).*1)) as [Hin|_]; [|done].
    by apply not_elem_of_nil in Hin.
  - cbn [record_index]. destruct (String.eqb_spec k name) as [->|Hk].
    + destruct (bool_decide_reflect (name ∈ ((name, i) :: rest).*1)) as [_|Hin]; [done|].
      exfalso. apply Hin. apply list_elem_of_here.
    + rewrite fmap_cons, IH.
      destruct (bool_decide_reflect (name ∈ rest.*1)) as [Hin|Hin];
        destruct (bool_decide_reflect (name ∈ ((k, i) :: rest).*1)) as [Hin'|Hin'].
      * done.
      * exfalso. apply Hin'. by apply list_elem_of_further.
      * exfalso. apply elem_of_cons in Hin' as [->|?]; [by apply Hk | by apply Hin].
      * done.
Qed.

Lemma record_index_NoDup (name : string) (index : nat) (m : OptionIndices) :
  NoDup m.*1 -> NoDup (record_index name index m).*1.
Proof.
  intros Hnd. rewrite record_index_keys.
  destruct (bool_decide_reflect (name ∈ m.*1)) as [Hin|Hin]; [done|].
  apply NoDup_app. split; [done|]. split.
  - intros x Hx Hx'. apply list_elem_of_singleton in Hx'. by subst.
  - apply NoDup_singleton.
Qed.

Section Indices.

Context (E : Env).

Lemma visit_item_own (param : ConfigurationItem) (index : nat) (m : OptionIndices)
    (name : string) :
  own_property name (visit_item E param index m).2 =
  if bool_decide (rewritten_name E param = Some name) then Some index
  else own_property name m.
Proof.
  unfold visit_item, rewritten_name. destruct (section param) as [s|].
  - destruct (truthy_string s); cbn [snd].
    + case_bool_decide as Hn.
      * injection Hn as <-. apply own_record_index_eq.
      * apply own_record_index_ne. congruence.
    + by case_bool_decide.
  - by case_bool_decide.
Qed.

Lemma visit_item_NoDup (param : ConfigurationItem) (index : nat) (m : OptionIndices) :
  NoDup m.*1 -> NoDup (visit_item E param index m).2.*1.
Proof.
  intros Hnd. unfold visit_item. destruct (section param) as [s|]; [|done].
  destruct (truthy_string s); [|done]. by apply record_index_NoDup.
Qed.

Lemma forEach_items_own (items : list ConfigurationItem) (index : nat) (m : OptionIndices)
    (name : string) :
  own_property name (forEach_items E items index m).2 =
  last_named E name items index (own_property name m).
Proof.
  revert index m. induction items as [|param rest IH]; intros index m; simpl; [done|].
  destruct (visit_item E param index m) as [param' m'] eqn:Hv.
  specialize (IH (S index) m').
  destruct (forEach_items E rest (S index) m') as [rest' m'']. simpl in *.
  rewrite IH. f_equal.
  change m' with (param', m').2. rewrite <- Hv. apply visit_item_own.
Qed.

Lemma forEach_items_NoDup (items : list ConfigurationItem) (index : nat) (m : OptionIndices) :
  NoDup m.*1 -> NoDup (forEach_items E items index m).2.*1.
Proof.
  revert index m. induction items as [|param rest IH]; intros index m Hnd; simpl; [done|].
  destruct (visit_item E param index m) as [param' m'] eqn:Hv.
  specialize (IH (S index) m').
  destruct (forEach_items E rest (S index) m') as [rest' m'']. simpl in *.
  apply IH. change m' with (param', m').2. rewrite <- Hv. by apply visit_item_NoDup.
Qed.

(** The items go on in their order, each rewritten by itself. *)
Lemma forEach_items_sent (items : list ConfigurationItem) (index : nat) (m : OptionIndices) :
  (forEach_items E items index m).1 = map (fun param => (visit_item E param 0 []).1) items.
Proof.
  revert index m. induction items as [|param rest IH]; intros index m; simpl; [done|].
  destruct (visit_item E param index m) as [param' m'] eqn:Hv.
  specialize (IH (S index) m').
  destruct (forEach_items E rest (S index) m') as [rest' m'']. simpl in *.
  rewrite IH. f_equal.
  change param' with (param', m').1. rewrite <- Hv.
  unfold visit_item. destruct (section param) as [s|]; [|done].
  by destruct (truthy_string s).
Qed.

Lemma last_named_Some (name : string) (items : list ConfigurationItem) (index : nat)
    (acc : option nat) (k : nat) :
  last_named E name items index acc = Some k ->
  (acc = Some k /\ forall j p, items !! j = Some p -> rewritten_name E p <> Some name) \/
  (exists j p, k = index + j /\ items !! j = Some p /\ rewritten_name E p = Some name /\
     forall j' p', j < j' -> items !! j' = Some p' -> rewritten_name E p' <> Some name).
Proof.
  revert index acc. induction items as [|param rest IH]; intros index acc; simpl.
  - intros ->. left. split; [done|]. intros j p H. by rewrite lookup_nil in H.
  - intros H. apply IH in H as [[Hacc Hnone]|(j & p & -> & Hj & Hp & Hlast)].
    + destruct (bool_decide_reflect (rewritten_name E param = Some name)) as [Hn|Hn].
      * right. exists 0, param. injection Hacc as <-.
        split; [lia|]. split; [done|]. split; [done|].
        intros [|j'] p' Hlt Hj'; [lia|]. simpl in Hj'. eauto.
      * left. split; [done|]. intros [|j] p; simpl; [by intros [= <-]|eauto].
    + right. exists (S j), p. split; [lia|]. split; [done|]. split; [done|].
      intros [|j'] p' Hlt Hj'; [lia|]. simpl in Hj'. apply (Hlast j'); [lia|done].
Qed.

Lemma last_named_acc_Some (name : string) (items : list ConfigurationItem) (index a : nat) :
  is_Some (last_named E name items index (Some a)).
Proof.
  revert index a. induction items as [|param rest IH]; intros index a; simpl; [by eexists|].
  destruct (bool_decide (rewritten_name E param = Some name)); apply IH.
Qed.

Lemma last_named_None (name : string) (items : list ConfigurationItem) (index : nat)
    (acc : option nat) (j : nat) (p : ConfigurationItem) :
  last_named E name items index acc = None ->
  items !! j = Some p -> rewritten_name E p <> Some name.
Proof.
  revert index acc j. induction items as [|param rest IH]; intros index acc j Hk Hj.
  - by rewrite lookup_nil in Hj.
  - simpl in Hk. destruct j as [|j]; simpl in Hj.
    + injection Hj as ->. intros Hp. rewrite bool_decide_eq_true_2 in Hk by done.
      destruct (last_named_acc_Some name rest (S index) index) as [k Hk'].
      congruence.
    + by eapply IH.
Qed.

Lemma last_named_last (name : string) (items : list ConfigurationItem) (index : nat)
    (acc : option nat) (j : nat) (p : ConfigurationItem) :
  items !! j = Some p -> rewritten_name E p = Some name ->
  (forall j' p', j < j' -> items !! j' = Some p' -> rewritten_name E p' <> Some name) ->
  last_named E name items index acc = Some (index + j).
Proof.
  intros Hj Hp Hlast.
  destruct (last_named E name items index acc) as [k|] eqn:Hk.
  - apply last_named_Some in Hk as [[_ Hnone]|(j0 & p0 & -> & Hj0 & Hp0 & Hlast0)].
    + by destruct (Hnone j p Hj).
    + f_equal. destruct (Nat.lt_total j j0) as [Hlt|[->|Hlt]]; [|done|].
      * by destruct (Hlast j0 p0 Hlt Hj0).
      * by destruct (Hlast0 j p Hlt Hj).
  - by destruct (last_named_None name items index acc j p Hk Hj).
Qed.

(** What a recorded index is: the last item sent on under that name. *)
Lemma recorded_index_last (items : list ConfigurationItem) (name : string) (k : nat) :
  own_property name (recorded_indices E items) = Some k ->
  exists p, items !! k = Some p /\ rewritten_name E p = Some name /\
    forall j' p', k < j' -> items !! j' = Some p' -> rewritten_name E p' <> Some name.
Proof.
  unfold recorded_indices. rewrite forEach_items_own. simpl.
  intros H. apply last_named_Some in H as [[? _]|(j & p & -> & Hj & Hp & Hlast)]; [done|].
  exists p. simpl. auto.
Qed.

Lemma last_is_recorded (items : list ConfigurationItem) (name : string) (k : nat)
    (p : ConfigurationItem) :
  items !! k = Some p -> rewritten_name E p = Some name ->
  (forall j' p', k < j' -> items !! j' = Some p' -> rewritten_name E p' <> Some name) ->
  own_property name (recorded_indices E items) = Some k.
Proof.
  intros Hk Hp Hlast. unfold recorded_indices. rewrite forEach_items_own.
  by rewrite (last_named_last name items 0 _ k p).
Qed.

Lemma named_is_recorded (items : list ConfigurationItem) (name : string) (j : nat)
    (p : ConfigurationItem) :
  items !! j = Some p -> rewritten_name E p = Some name ->
  exists k, j <= k /\ own_property name (recorded_indices E items) = Some k.
Proof.
  intros Hj Hp.
  destruct (own_property name (recorded_indices E items)) as [k|] eqn:Hk.
  - exists k. split; [|done].
    apply recorded_index_last in Hk as (pk & Hpk & Hn & Hlast).
    destruct (decide (j <= k)) as [|Hgt]; [done|].
    destruct (Hlast j p); [lia|done|done].
  - unfold recorded_indices in Hk. rewrite forEach_items_own in Hk.
    by destruct (last_named_None name items 0 _ j p Hk Hj).
Qed.

Lemma recorded_indices_NoDup (items : list ConfigurationItem) :
  NoDup (recorded_indices E items).*1.
Proof. apply forEach_items_NoDup. apply NoDup_nil_2. Qed.

Lemma recorded_index_inj (items : list ConfigurationItem) (n1 n2 : string) (k : nat) :
  own_property n1 (recorded_indices E items) = Some k ->
  own_property n2 (recorded_indices E items) = Some k -> n1 = n2.
Proof.
  intros H1 H2.
  apply recorded_index_last in H1 as (p1 & Hp1 & Hn1 & _).
  apply recorded_index_last in H2 as (p2 & Hp2 & Hn2 & _).
  congruence.
Qed.

Lemma recorded_index_lt (items : list ConfigurationItem) (name : string) (k : nat) :
  own_property name (recorded_indices E items) = Some k -> k < length items.
Proof.
  intros H. apply recorded_index_last in H as (p & Hp & _).
  by apply lookup_lt_Some in Hp.
Qed.

Lemma sent_items_length (items : list ConfigurationItem) :
  length (sent_items E items) = length items.
Proof. unfold sent_items. by rewrite forEach_items_sent, length_map. Qed.

End Indices.

(** ** The three passes over the response array *)

Section Passes.

Context (E : Env) (Q : list LSPAny -> Prop).

Lemma normalize_strings_preserves (entries : OptionIndices) (result : list LSPAny) :
  (forall name idx v r, (name, idx) ∈ entries -> Q r -> Q (js_set idx v r)) ->
  Q result -> Q (normalize_strings E entries result).
Proof.
  revert result. induction entries as [|[name idx] rest IH]; intros result Hw HQ; simpl; [done|].
  assert (Hrest : forall name idx v r, (name, idx) ∈ rest -> Q r -> Q (js_set idx v r)).
  { intros n i v r Hin. apply (Hw n). by apply list_elem_of_further. }
  destruct (configuration_get E (slice 8 name)) as [| | | |configValue| |]; try by apply IH.
  destruct (truthy_string configValue); [|by apply IH].
  apply IH; [done|]. apply (Hw name); [apply list_elem_of_here | done].
Qed.

Lemma inject_zig_path_preserves (m : OptionIndices) (result : list LSPAny) :
  (forall idx v r, own_property "zig.path" m = Some idx -> Q r -> Q (js_set idx v r)) ->
  Q result -> Q (inject_zig_path E m result).
Proof.
  intros Hw HQ. unfold inject_zig_path, optionIndices_get.
  destruct (own_property "zig.path" m) as [idx|]; [|done].
  destruct (getZigPath E); by apply Hw.
Qed.

Lemma apply_option_preserves (m : OptionIndices) (optionName : string) (result : list LSPAny) :
  (forall idx r, own_property optionName m = Some (S idx) -> Q r ->
     Q (js_set (S idx) (js_prop optionName (additionalOptions E)) r)) ->
  Q result -> Q (apply_option E m optionName result).
Proof.
  intros Hw HQ. unfold apply_option, optionIndices_get.
  destruct (own_property optionName m) as [[|idx]|]; [done| |by destruct (inherited _)].
  by apply Hw.
Qed.

Lemma visit_option_preserves (m : OptionIndices) (optionName : string) (result : list LSPAny) :
  (forall idx r, own_property optionName m = Some (S idx) -> Q r ->
     Q (js_set (S idx) (js_prop optionName (additionalOptions E)) r)) ->
  Q result -> Q (visit_option E m optionName result).1.
Proof.
  intros Hw HQ. unfold visit_option.
  destruct (has_default E _); [|by apply apply_option_preserves].
  destruct (showWarningMessage E optionName) as [response|]; [|done].
  destruct (String.eqb response _); [by apply apply_option_preserves|].
  destruct (String.eqb response _); [done|by apply apply_option_preserves].
Qed.

Lemma merge_additional_preserves (m : OptionIndices) (names : list string)
    (result : list LSPAny) :
  (forall name idx r, name ∈ names -> own_property name m = Some (S idx) ->
     Q r -> Q (js_set (S idx) (js_prop name (additionalOptions E)) r)) ->
  Q result -> Q (merge_additional E m names result).1.
Proof.
  revert result. induction names as [|name rest IH]; intros result Hw HQ; simpl; [done|].
  pose proof (visit_option_preserves m name result) as Hv.
  destruct (visit_option E m name result) as [result' evs].
  specialize (IH result').
  destruct (merge_additional E m rest result') as [result'' evs']. simpl in *.
  apply IH.
  - intros n i r Hin. apply Hw. by apply list_elem_of_further.
  - apply Hv; [|done]. intros i r. apply Hw. apply list_elem_of_here.
Qed.

End Passes.

Section Exchange.

Context (E : Env).

Lemma configurationMiddleware_unfold (items : list ConfigurationItem) :
  configurationMiddleware E items =
  match next E (sent_items E items) with
  | inl err => {| sent := sent_items E items; response := inl err; events := [] |}
  | inr result =>
      let merged :=
        merge_additional E (recorded_indices E items) (map fst (additionalOptions E))
          (inject_zig_path E (recorded_indices E items)
             (normalize_strings E (recorded_indices E items) result)) in
      {| sent := sent_items E items; response := inr merged.1; events := merged.2 |}
  end.
Proof.
  unfold configurationMiddleware, sent_items, recorded_indices.
  destruct (forEach_items E items 0 []) as [items' m]. simpl.
  destruct (next E items') as [err|result]; [done|].
  by destruct (merge_additional E m _ _).
Qed.

Lemma sent_unfold (items : list ConfigurationItem) :
  sent (configurationMiddleware E items) = sent_items E items.
Proof. rewrite configurationMiddleware_unfold. by destruct (next E _). Qed.

(** Every assignment of the bridge goes to a recorded index, so what
    holds of the continuation's array and survives such assignments holds
    of the response. *)
Lemma response_preserves (Q : list LSPAny -> Prop) (items : list ConfigurationItem)
    (arr : list LSPAny) :
  next E (sent_items E items) = inr arr ->
  (forall name idx v r,
     own_property name (recorded_indices E items) = Some idx -> Q r -> Q (js_set idx v r)) ->
  Q arr ->
  exists out, response (configurationMiddleware E items) = inr out /\ Q out.
Proof.
  intros Hnext Hw HQ. rewrite configurationMiddleware_unfold, Hnext. simpl.
  eexists. split; [done|].
  apply merge_additional_preserves; [intros; by eapply Hw|].
  apply inject_zig_path_preserves; [intros; by eapply Hw|].
  apply normalize_strings_preserves; [|done].
  intros name idx v r Hin. apply (Hw name).
  apply elem_of_own_property; [apply recorded_indices_NoDup | done].
Qed.

End Exchange.

(** ** The exchange as a whole *)

Section Claims.

Context (E : Env).

Lemma js_get_lookup (a b : list LSPAny) (i : nat) :
  length a = length b -> js_get a i = js_get b i -> a !! i = b !! i.
Proof.
  intros Hlen. unfold js_get.
  destruct (a !! i) as [x|] eqn:Ha, (b !! i) as [y|] eqn:Hb; simpl.
  - by intros ->.
  - apply lookup_lt_Some in Ha. apply lookup_ge_None in Hb. lia.
  - apply lookup_ge_None in Ha. apply lookup_lt_Some in Hb. lia.
  - done.
Qed.

Lemma normalize_strings_slot (entries : OptionIndices) (result : list LSPAny)
    (name : string) (idx : nat) :
  NoDup entries.*1 ->
  (forall n i, (n, i) ∈ entries -> i = idx -> n = name) ->
  (name, idx) ∈ entries ->
  js_get (normalize_strings E entries result) idx =
    match configuration_get E (slice 8 name) with
    | VStr v => if truthy_string v then VStr (handleConfigOption E v) else js_get result idx
    | _ => js_get result idx
    end.
Proof.
  revert result. induction entries as [|[n i] rest IH]; intros result Hnd Hinj Hin.
  - by apply not_elem_of_nil in Hin.
  - apply NoDup_cons in Hnd as [Hn Hnd]. apply elem_of_cons in Hin as [[= <- <-]|Hin].
    + assert (Hkeep : forall r x, js_get r idx = x ->
                js_get (normalize_strings E rest r) idx = x).
      { intros r x Hr.
        apply (normalize_strings_preserves E (fun r => js_get r idx = x)); [|done].
        intros n' i' v r' Hin' Hr'. rewrite js_get_set_ne; [done|].
        intros ->. apply Hn. rewrite <- (Hinj n' idx); [|by apply list_elem_of_further|done].
        apply list_elem_of_fmap. by exists (n', idx). }
      simpl. destruct (configuration_get E (slice 8 name)) as [| | | |v| |];
        try by apply Hkeep.
      destruct (truthy_string v); apply Hkeep; [apply js_get_set_eq | done].
    + assert (Hne : i <> idx).
      { intros ->. apply Hn. rewrite (Hinj n idx); [|apply list_elem_of_here|done].
        apply list_elem_of_fmap. by exists (name, idx). }
      assert (Hrest : forall r, js_get r idx = js_get result idx ->
                js_get (normalize_strings E rest r) idx =
                match configuration_get E (slice 8 name) with
                | VStr v =>
                    if truthy_string v then VStr (handleConfigOption E v)
                    else js_get result idx
                | _ => js_get result idx
                end).
      { intros r Hr. rewrite IH; [|done| |done].
        - by rewrite Hr.
        - intros n' i' Hin'. apply Hinj. by apply list_elem_of_further. }
      simpl. destruct (configuration_get E (slice 8 n)) as [| | | |v| |];
        try by apply Hrest.
      destruct (truthy_string v); apply Hrest; [by apply js_get_set_ne | done].
Qed.

Lemma omit_own_eq (name : string) (obj : list (string * LSPAny)) :
  own_property name (omit name obj) = None.
Proof.
  apply own_property_None. intros Hin.
  apply list_elem_of_fmap in Hin as ([k x] & -> & Hin).
  apply list_elem_of_filter in Hin as [Hk _]. simpl in Hk.
  by rewrite String.eqb_refl in Hk.
Qed.

Lemma omit_own_ne (name key : string) (obj : list (string * LSPAny)) :
  key <> name -> own_property key (omit name obj) = own_property key obj.
Proof.
  intros Hne. unfold omit. induction obj as [|[k x] rest IH]; [done|].
  destruct (String.eqb_spec k name) as [->|Hk].
  - rewrite filter_cons_False by (simpl; rewrite String.eqb_refl; simpl; tauto).
    simpl. destruct (String.eqb_spec name key); [congruence | done].
  - rewrite filter_cons_True.
    + simpl. by rewrite IH.
    + simpl. destruct (String.eqb_spec k name); [done | exact I].
Qed.

Lemma inject_zig_path_slot (m : OptionIndices) (result : list LSPAny) (name : string)
    (idx : nat) :
  (forall n, own_property n m = Some idx -> n = name) ->
  own_property name m = Some idx ->
  js_get (inject_zig_path E m result) idx =
    if String.eqb name "zig.path" then
      match getZigPath E with
      | Normal path => VStr path
      | Abrupt _ => VNull
      end
    else js_get result idx.
Proof.
  intros Hinj Hown. unfold inject_zig_path, optionIndices_get.
  destruct (String.eqb_spec name "zig.path") as [->|Hne].
  - rewrite Hown. destruct (getZigPath E); apply js_get_set_eq.
  - destruct (own_property "zig.path" m) as [i|] eqn:Hz; [|by destruct (inherited _)].
    assert (i <> idx) by (intros ->; apply Hne; symmetry; by apply Hinj).
    destruct (getZigPath E); by apply js_get_set_ne.
Qed.

Lemma visit_option_let_through (m : OptionIndices) (optionName : string)
    (result : list LSPAny) :
  (visit_option E m optionName result).1 =
    if let_through E optionName then apply_option E m optionName result else result.
Proof.
  unfold visit_option, let_through. destruct (has_default E _); [|done].
  destruct (showWarningMessage E optionName) as [answer|]; [|done].
  destruct (String.eqb_spec answer (label_use optionName)) as [->|_].
  - reflexivity.
  - by destruct (String.eqb answer label_show).
Qed.

Lemma visit_option_other_slot (m : OptionIndices) (n name : string) (result : list LSPAny)
    (idx : nat) :
  (forall n', own_property n' m = Some idx -> n' = name) -> n <> name ->
  js_get (visit_option E m n result).1 idx = js_get result idx.
Proof.
  intros Hinj Hne.
  apply (visit_option_preserves E (fun r => js_get r idx = js_get result idx)); [|done].
  intros i r Hown Hr. rewrite js_get_set_ne; [done|].
  intros Heq. apply Hne, Hinj. by rewrite <- Heq.
Qed.

(** The last pass at one recorded index: the value of the option of the
    recorded name, when the index is not the first and the option is let
    through, and what the slot held before otherwise. *)
Lemma merge_additional_slot (m : OptionIndices) (names : list string) (result : list LSPAny)
    (name : string) (idx : nat) :
  (forall n, own_property n m = Some idx -> n = name) ->
  own_property name m = Some idx ->
  js_get (merge_additional E m names result).1 idx =
    if negb (Nat.eqb idx 0) && (bool_decide (name ∈ names) && let_through E name)
    then js_prop name (additionalOptions E)
    else js_get result idx.
Proof.
  intros Hinj Hown. revert result.
  induction names as [|n rest IH]; intros result.
  - rewrite (bool_decide_eq_false_2 (name ∈ [])) by apply not_elem_of_nil.
    simpl. by rewrite andb_false_r.
  - cbn [merge_additional].
    destruct (visit_option E m n result) as [result' evs] eqn:Hv.
    assert (Hr' : result' = (visit_option E m n result).1) by (by rewrite Hv).
    specialize (IH result'). destruct (merge_additional E m rest result') as [r2 evs2].
    simpl in *. rewrite IH. clear IH.
    destruct (decide (n = name)) as [->|Hne].
    + rewrite (bool_decide_eq_true_2 (name ∈ name :: rest)) by apply list_elem_of_here.
      rewrite visit_option_let_through in Hr'.
      destruct (let_through E name); simpl.
      * unfold apply_option, optionIndices_get in Hr'. rewrite Hown in Hr'.
        destruct idx as [|k]; simpl; [by subst|].
        assert (js_get result' (S k) = js_prop name (additionalOptions E))
          by (subst result'; apply js_get_set_eq).
        by destruct (bool_decide (name ∈ rest)).
      * rewrite !andb_false_r. by subst.
    + assert (Hin : bool_decide (name ∈ n :: rest) = bool_decide (name ∈ rest)).
      { apply bool_decide_ext. rewrite elem_of_cons.
        split; [intros [?|?]; [congruence | done] | by right]. }
      rewrite Hin, Hr'. by rewrite (visit_option_other_slot m n name result idx Hinj Hne).
Qed.

(** The three passes at one recorded index. *)
Lemma response_slot (items : list ConfigurationItem) (arr : list LSPAny) (name : string)
    (idx : nat) :
  next E (sent_items E items) = inr arr ->
  own_property name (recorded_indices E items) = Some idx ->
  exists out,
    response (configurationMiddleware E items) = inr out /\
    js_get out idx =
      if negb (Nat.eqb idx 0) then post_processed E name (js_get arr idx)
      else before_options E name (js_get arr idx).
Proof.
  intros Hnext Hown. rewrite configurationMiddleware_unfold, Hnext. simpl.
  eexists. split; [done|].
  assert (Hinj : forall n, own_property n (recorded_indices E items) = Some idx -> n = name)
    by (intros n Hn; by eapply recorded_index_inj).
  rewrite (merge_additional_slot _ _ _ name idx Hinj Hown).
  rewrite (inject_zig_path_slot _ _ name idx Hinj Hown).
  rewrite (normalize_strings_slot (recorded_indices E items) arr name idx).
  - unfold post_processed, before_options. by destruct (Nat.eqb idx 0); simpl;
      [|destruct (bool_decide _ && let_through E name)].
  - apply recorded_indices_NoDup.
  - intros n i Hin ->. apply Hinj.
    apply elem_of_own_property; [apply recorded_indices_NoDup | done].
  - by apply own_property_elem_of.
Qed.

(** C1: when the continuation answers with one value per request item,
    the response has the length of the request, and every slot belongs
    to the item at its index. The slot of an item without a section, or
    of an item followed by another that is sent on under the same name,
    is what the continuation returned at that index. The slot of an item
    that is the last one sent on under its name holds what the passes
    make, for that name, of what the continuation returned at that
    index; in the first slot this is with or without the additional
    option of that name. *)
Theorem bridge_mirrors_the_request (items : list ConfigurationItem) (arr : list LSPAny) :
  next E (sent (configurationMiddleware E items)) = inr arr ->
  length arr = length items ->
  exists out,
    response (configurationMiddleware E items) = inr out /\
    length out = length items /\
    (forall i p, items !! i = Some p ->
       rewritten_name E p = None \/
       (exists j p', i < j /\ items !! j = Some p' /\
          rewritten_name E p' = rewritten_name E p) ->
       out !! i = arr !! i) /\
    (forall i p name, items !! i = Some p -> rewritten_name E p = Some name ->
       (forall j p', i < j -> items !! j = Some p' -> rewritten_name E p' <> Some name) ->
       out !! i = Some (post_processed E name (js_get arr i)) \/
       i = 0 /\ out !! i = Some (before_options E name (js_get arr i))).
Proof.
  intros Hnext Hlen.
  assert (Hnext' : next E (sent_items E items) = inr arr)
    by (by rewrite sent_unfold in Hnext).
  destruct (response_preserves E
    (fun r => length r = length items /\
       forall i, (forall name, own_property name (recorded_indices E items) <> Some i) ->
         js_get r i = js_get arr i) items arr Hnext') as (out & Hout & Hl & Hframe).
  - intros name idx v r Hown [Hr Hf]. split.
    + rewrite js_set_length_in_range; [done|].
      rewrite Hr. by eapply recorded_index_lt.
    + intros i Hi. rewrite js_get_set_ne; [by apply Hf|].
      intros ->. by apply (Hi name).
  - done.
  - exists out. split; [done|]. split; [done|]. split.
    + intros i p Hi Hcase. apply js_get_lookup; [congruence|]. apply Hframe.
      intros name Hown.
      destruct (recorded_index_last E items name i Hown) as (p0 & Hp0 & Hn0 & Hlast0).
      rewrite Hi in Hp0. injection Hp0 as <-.
      destruct Hcase as [Hnone|(j & p' & Hlt & Hj & Hn')]; [congruence|].
      apply (Hlast0 j p' Hlt Hj). congruence.
    + intros i p name Hi Hn Hlast.
      pose proof (last_is_recorded E items name i p Hi Hn Hlast) as Hown.
      destruct (response_slot items arr name i Hnext' Hown) as (out' & Hout' & Hslot).
      rewrite Hout in Hout'. injection Hout' as <-.
      assert (Hi' : i < length out) by (rewrite Hl; by eapply lookup_lt_Some).
      destruct (out !! i) as [v|] eqn:Hv; [|apply lookup_ge_None in Hv; lia].
      apply lookup_js_get in Hv as Hget. rewrite Hget in Hslot. subst v.
      destruct i as [|i]; [right | left]; done.
Qed.

(** C8: an item with a section (a non-empty string: the test the callback
    makes) is sent on under "zig.path" when its section is the alias
    "zls.zig_exe_path", and under "zig.zls." followed by the camel-case
    form of the section without its first four characters otherwise. *)
Theorem sections_are_rewritten (items : list ConfigurationItem) (i : nat)
    (p : ConfigurationItem) (s : string) :
  items !! i = Some p -> section p = Some s -> s <> "" ->
  exists p',
    sent (configurationMiddleware E items) !! i = Some p' /\
    scopeUri p' = scopeUri p /\
    section p' =
      Some (if String.eqb s "zls.zig_exe_path" then "zig.path"
            else "zig.zls." +:+ camelCase E (slice 4 s)).
Proof.
  intros Hi Hs Hne.
  rewrite sent_unfold. unfold sent_items. rewrite forEach_items_sent.
  rewrite list_lookup_fmap, Hi. simpl. eexists. split; [done|].
  unfold visit_item. rewrite Hs.
  destruct s as [|c s']; [done|]. simpl. done.
Qed.

(** An item without a section, or with the empty one, is sent on as it
    is. *)
Lemma unsectioned_items_unchanged (items : list ConfigurationItem) (i : nat)
    (p : ConfigurationItem) :
  items !! i = Some p -> section p = None \/ section p = Some "" ->
  sent (configurationMiddleware E items) !! i = Some p.
Proof.
  intros Hi Hs. rewrite sent_unfold. unfold sent_items. rewrite forEach_items_sent.
  rewrite list_lookup_fmap, Hi. simpl. f_equal.
  unfold visit_item. by destruct Hs as [-> | ->].
Qed.

Lemma rewritten_name_zig_path (p : ConfigurationItem) :
  rewritten_name E p = Some "zig.path" <-> section p = Some "zls.zig_exe_path".
Proof.
  unfold rewritten_name, rewrite_section. destruct (section p) as [s|]; [|done].
  destruct (String.eqb_spec s "zls.zig_exe_path") as [->|Hne]; [done|].
  split.
  - by destruct (truthy_string s).
  - intros [= ->]. done.
Qed.

(** C7, as amended: at the index of the last item that names the alias,
    when the additional options have no entry "zig.path", the response
    holds the discovered path, or null when discovery throws; the bridge
    completes with a response either way. *)
Theorem zig_path_slot (items : list ConfigurationItem) (arr : list LSPAny) (idx : nat)
    (p : ConfigurationItem) :
  next E (sent (configurationMiddleware E items)) = inr arr ->
  items !! idx = Some p -> section p = Some "zls.zig_exe_path" ->
  (forall j p', idx < j -> items !! j = Some p' -> section p' <> Some "zls.zig_exe_path") ->
  own_property "zig.path" (additionalOptions E) = None ->
  exists out,
    response (configurationMiddleware E items) = inr out /\
    js_get out idx =
      match getZigPath E with
      | Normal path => VStr path
      | Abrupt _ => VNull
      end.
Proof.
  intros Hnext Hidx Hsec Hlast Hnone.
  assert (Hown : own_property "zig.path" (recorded_indices E items) = Some idx).
  { apply (last_is_recorded E items "zig.path" idx p); [done| |].
    - by apply rewritten_name_zig_path.
    - intros j p' Hlt Hj Hn. apply rewritten_name_zig_path in Hn. by apply (Hlast j p'). }
  rewrite sent_unfold in Hnext. rewrite configurationMiddleware_unfold, Hnext.
  simpl. eexists. split; [done|].
  apply (merge_additional_preserves E (fun r => js_get r idx = _)).
  - intros name k r Hin Hk Hr. rewrite js_get_set_ne; [done|].
    intros Heq. rewrite Heq in Hk.
    assert (name = "zig.path") as -> by (by eapply recorded_index_inj).
    apply own_property_None in Hnone. done.
  - unfold inject_zig_path, optionIndices_get. rewrite Hown.
    destruct (getZigPath E); apply js_get_set_eq.
Qed.

(** C10: of several items sent on under one name the index map holds
    the last one only. The slot of that one holds what the three passes
    make of what the continuation returned there (the normalized
    setting, the compiler path, the value of an additional option); the
    slot of every earlier one is what the continuation returned. *)
Theorem only_the_last_duplicate_is_processed (items : list ConfigurationItem)
    (arr : list LSPAny) (i j : nat) (pi pj : ConfigurationItem) (name : string) :
  next E (sent (configurationMiddleware E items)) = inr arr ->
  items !! i = Some pi -> items !! j = Some pj -> i < j ->
  rewritten_name E pi = Some name -> rewritten_name E pj = Some name ->
  exists k pk out,
    own_property name (recorded_indices E items) = Some k /\ j <= k /\
    items !! k = Some pk /\ rewritten_name E pk = Some name /\
    (forall j' p', k < j' -> items !! j' = Some p' -> rewritten_name E p' <> Some name) /\
    response (configurationMiddleware E items) = inr out /\
    js_get out k = post_processed E name (js_get arr k) /\
    forall i' p', i' < k -> items !! i' = Some p' -> rewritten_name E p' = Some name ->
      js_get out i' = js_get arr i'.
Proof.
  intros Hnext Hi Hj Hlt Hni Hnj.
  destruct (named_is_recorded E items name j pj Hj Hnj) as (k & Hjk & Hown).
  destruct (recorded_index_last E items name k Hown) as (pk & Hk & Hnk & Hlast).
  assert (Hnext' : next E (sent_items E items) = inr arr)
    by (by rewrite sent_unfold in Hnext).
  destruct (response_slot items arr name k Hnext' Hown) as (out & Hout & Hslot).
  exists k, pk, out. repeat (split; [done|]). split.
  - rewrite Hslot. destruct k; [lia | done].
  - destruct (response_preserves E
      (fun r => forall i' p', i' < k -> items !! i' = Some p' ->
         rewritten_name E p' = Some name -> js_get r i' = js_get arr i')
      items arr Hnext') as (out' & Hout' & Hearlier); [|done|].
    + intros name' idx v r Hown' Hr i' p' Hlt' Hi' Hn'.
      rewrite js_get_set_ne; [by eapply Hr|].
      intros ->. destruct (recorded_index_last E items name' i' Hown') as (p0 & Hp0 & Hn0 & _).
      assert (name' = name) as -> by congruence.
      rewrite Hown in Hown'. injection Hown' as ->. lia.
    + rewrite Hout in Hout'. by injection Hout' as <-.
Qed.

(** *** The additional options *)

(** The prompts and writes of one turn depend on the option alone. *)
Lemma visit_option_events (m : OptionIndices) (optionName : string) (result : list LSPAny) :
  (visit_option E m optionName result).2 = (visit_option E [] optionName []).2.
Proof.
  unfold visit_option. destruct (has_default E _); [|done].
  destruct (showWarningMessage E optionName) as [answer|]; [|done].
  destruct (String.eqb answer _); [done|]. by destruct (String.eqb answer _).
Qed.

Lemma merge_additional_events (m : OptionIndices) (names : list string) (result : list LSPAny) :
  (merge_additional E m names result).2 =
  concat (map (fun name => (visit_option E [] name []).2) names).
Proof.
  revert result. induction names as [|name rest IH]; intros result; simpl; [done|].
  pose proof (visit_option_events m name result) as Hv.
  destruct (visit_option E m name result) as [result' evs].
  specialize (IH result').
  destruct (merge_additional E m rest result') as [result'' evs']. simpl in *.
  by rewrite Hv, IH.
Qed.

Lemma elem_of_concat_map {A B : Type} (f : A -> list B) (l : list A) (x : B) :
  x ∈ concat (map f l) <-> exists a, a ∈ l /\ x ∈ f a.
Proof.
  induction l as [|a l IH]; simpl.
  - split; [intros H; by apply not_elem_of_nil in H|].
    intros (a & Ha & _). by apply not_elem_of_nil in Ha.
  - rewrite elem_of_app, IH. split.
    + intros [H|(a' & Ha' & H)].
      * exists a. split; [apply list_elem_of_here | done].
      * exists a'. split; [by apply list_elem_of_further | done].
    + intros (a' & Ha' & H). apply elem_of_cons in Ha' as [->|Ha']; [by left|].
      right. by exists a'.
Qed.

(** An entry no setting is declared for, requested at an index other
    than the first: its value is the response's slot. *)
Lemma merge_additional_writes (m : OptionIndices) (names : list string) (result : list LSPAny)
    (name : string) (k : nat) :
  (forall n, own_property n m = Some (S k) -> n = name) ->
  name ∈ names -> has_default E (slice 8 name) = false ->
  own_property name m = Some (S k) ->
  js_get (merge_additional E m names result).1 (S k) = js_prop name (additionalOptions E).
Proof.
  intros Hinj Hin Hd Hown. revert result.
  induction names as [|n rest IH]; intros result; [by apply not_elem_of_nil in Hin|].
  assert (Hkeep : forall r names',
    js_get r (S k) = js_prop name (additionalOptions E) ->
    js_get (merge_additional E m names' r).1 (S k) = js_prop name (additionalOptions E)).
  { intros r names' Hr.
    apply (merge_additional_preserves E (fun r => js_get r (S k) = _)); [|done].
    intros n' i r' _ Hn' Hr'. destruct (decide (i = k)) as [->|Hne].
    - rewrite (Hinj n' Hn'). apply js_get_set_eq.
    - rewrite js_get_set_ne; [done|lia]. }
  simpl. destruct (visit_option E m n result) as [result' evs] eqn:Hv.
  destruct (decide (n = name)) as [->|Hne].
  - assert (Hr' : js_get result' (S k) = js_prop name (additionalOptions E)).
    { change result' with (result', evs).1. rewrite <- Hv.
      unfold visit_option. rewrite Hd. simpl.
      unfold apply_option, optionIndices_get. rewrite Hown. apply js_get_set_eq. }
    specialize (Hkeep result' rest Hr').
    by destruct (merge_additional E m rest result').
  - apply elem_of_cons in Hin as [?|Hin]; [done|].
    specialize (IH Hin result'). by destruct (merge_additional E m rest result').
Qed.

Lemma additional_option_applied (items : list ConfigurationItem) (arr : list LSPAny)
    (name : string) (v : LSPAny) (k : nat) :
  next E (sent (configurationMiddleware E items)) = inr arr ->
  own_property name (additionalOptions E) = Some v ->
  has_default E (slice 8 name) = false ->
  own_property name (recorded_indices E items) = Some (S k) ->
  exists out, response (configurationMiddleware E items) = inr out /\ js_get out (S k) = v.
Proof.
  intros Hnext Hv Hd Hown. rewrite sent_unfold in Hnext.
  rewrite configurationMiddleware_unfold, Hnext. simpl. eexists. split; [done|].
  rewrite (merge_additional_writes _ _ _ name k); try done.
  - unfold js_prop. by rewrite Hv.
  - intros n Hn. by eapply recorded_index_inj.
  - apply own_property_elem_of in Hv. apply list_elem_of_fmap. by exists (name, v).
Qed.

(** An entry whose name was recorded at index 0, or not at all, leaves
    the response as it was. *)
Lemma additional_option_skipped (m : OptionIndices) (name : string) (result : list LSPAny) :
  own_property name m = Some 0 \/ own_property name m = None ->
  (visit_option E m name result).1 = result.
Proof.
  intros Hown.
  assert (Ha : apply_option E m name result = result).
  { unfold apply_option, optionIndices_get.
    destruct Hown as [-> | ->]; [done|]. by destruct (inherited name). }
  unfold visit_option. destruct (has_default E _); [|done].
  destruct (showWarningMessage E name) as [answer|]; [|done].
  destruct (String.eqb answer _); [done|]. by destruct (String.eqb answer _).
Qed.

End Claims.

(** *** The conflicts of the additional options *)

Section Conflicts.

Context (E : Env).

(** What one turn shows and writes is the conflict path of its
    entry. *)
Lemma visit_option_conflict_path (optionName : string) :
  (visit_option E [] optionName []).2 =
  conflict_path E optionName (VObj (omit optionName (additionalOptions E))).
Proof.
  unfold visit_option, conflict_path. destruct (has_default E _); [|done].
  destruct (showWarningMessage E optionName) as [answer|]; [|done].
  destruct (String.eqb answer _); [done|]. by destruct (String.eqb answer _).
Qed.

Lemma zip_with_fmap_diag {A B C : Type} (f : A -> B -> C) (g : A -> B) (l : list A) :
  zip_with f l (map g l) = map (fun x => f x (g x)) l.
Proof. induction l as [|x l IH]; simpl; [done | by rewrite IH]. Qed.

Lemma let_through_declined (optionName : string) :
  has_default E (slice 8 optionName) = true ->
  showWarningMessage E optionName = None \/
  showWarningMessage E optionName = Some label_show ->
  let_through E optionName = false.
Proof.
  intros Hd [Ha|Ha]; unfold let_through; rewrite Hd, Ha; [done|].
  by rewrite String.eqb_refl.
Qed.

Lemma omit_names (name : string) (obj : list (string * LSPAny)) :
  (omit name obj).*1 = filter (fun n => negb (String.eqb n name)) obj.*1.
Proof.
  unfold omit. induction obj as [|[k x] rest IH]; [done|].
  rewrite fmap_cons. cbn [fst].
  destruct (String.eqb k name) eqn:Hk.
  - rewrite !filter_cons_False by (simpl; rewrite Hk; simpl; tauto). done.
  - rewrite !filter_cons_True by (simpl; rewrite Hk; exact I).
    rewrite fmap_cons. cbn [fst]. by rewrite IH.
Qed.

(** An entry that is not let through can as well be absent: the turns
    of the other entries make the same of the response. *)
Lemma merge_additional_without (m : OptionIndices) (name : string) (names : list string)
    (result : list LSPAny) :
  let_through E name = false ->
  (merge_additional E m names result).1 =
  (merge_additional (Fixtures.with_options E (omit name (additionalOptions E))) m
     (filter (fun n => negb (String.eqb n name)) names) result).1.
Proof.
  intros Hname. revert result. induction names as [|n rest IH]; intros result; [done|].
  cbn [merge_additional].
  destruct (visit_option E m n result) as [result' evs] eqn:Hv.
  assert (Hr' : result' = (visit_option E m n result).1) by (by rewrite Hv).
  specialize (IH result'). destruct (merge_additional E m rest result') as [r2 evs2].
  cbn [fst] in *. rewrite (visit_option_let_through E) in Hr'.
  destruct (String.eqb_spec n name) as [->|Hne].
  - rewrite filter_cons_False by (simpl; rewrite String.eqb_refl; simpl; tauto).
    rewrite Hname in Hr'. by subst.
  - rewrite filter_cons_True
      by (simpl; destruct (String.eqb_spec n name); [done | exact I]).
    cbn [merge_additional].
    set (E' := Fixtures.with_options E (omit name (additionalOptions E))) in *.
    destruct (visit_option E' m n result) as [result1 evs1] eqn:Hv1.
    assert (Hr1 : result1 = (visit_option E' m n result).1) by (by rewrite Hv1).
    rewrite (visit_option_let_through E') in Hr1.
    change (let_through E' n) with (let_through E n) in Hr1.
    assert (Happly : apply_option E' m n result = apply_option E m n result).
    { unfold apply_option. destruct (optionIndices_get m n) as [[|i]| |]; try done.
      subst E'. unfold js_prop. cbn [additionalOptions Fixtures.with_options].
      by rewrite omit_own_ne. }
    rewrite Happly in Hr1. rewrite <- Hr' in Hr1. subst result1.
    destruct (merge_additional E' m _ result') as [r3 evs3]. by cbn [fst] in *.
Qed.

(** C5, as amended: when the continuation answers with a response, what
    the exchange shows and writes is, entry by entry in the order of the
    additional options, the conflict path of each entry: nothing for an
    entry under whose name no setting is declared, and for every other
    entry the prompt, followed only on the answer "Use ... instead" by
    the two writes, of which the one of the additional options lacks
    that entry. An entry whose prompt was dismissed or answered "Show
    ..." leaves the response as it is without the entry. *)
Theorem conflicts_are_prompted (items : list ConfigurationItem) (arr : list LSPAny) :
  next E (sent (configurationMiddleware E items)) = inr arr ->
  (exists written,
     Forall2 (fun name rest => exists obj, rest = VObj obj /\ own_property name obj = None)
       (additionalOptions E).*1 written /\
     events (configurationMiddleware E items) =
       concat (zip_with (conflict_path E) (additionalOptions E).*1 written)) /\
  (forall name, has_default E (slice 8 name) = true ->
     showWarningMessage E name = None \/ showWarningMessage E name = Some label_show ->
     response (configurationMiddleware E items) =
     response (configurationMiddleware
                 (Fixtures.with_options E (omit name (additionalOptions E))) items)).
Proof.
  intros Hnext. rewrite sent_unfold in Hnext. split.
  - exists (map (fun name => VObj (omit name (additionalOptions E))) (additionalOptions E).*1).
    split.
    + apply Forall2_fmap_r, Forall_Forall2_diag, Forall_forall. intros name _.
      exists (omit name (additionalOptions E)). split; [done | apply omit_own_eq].
    + rewrite configurationMiddleware_unfold, Hnext. simpl.
      rewrite merge_additional_events, zip_with_fmap_diag. f_equal.
      apply map_ext. intros name. apply visit_option_conflict_path.
  - intros name Hd Ha. rewrite !configurationMiddleware_unfold.
    set (E' := Fixtures.with_options E (omit name (additionalOptions E))).
    change (sent_items E' items) with (sent_items E items).
    change (next E') with (next E). rewrite Hnext. simpl. f_equal.
    change (recorded_indices E' items) with (recorded_indices E items).
    change (additionalOptions E') with (omit name (additionalOptions E)).
    rewrite omit_names.
    by rewrite (merge_additional_without _ name) by (by apply let_through_declined).
Qed.

End Conflicts.

(** *** The statements on concrete exchanges *)

Import Fixtures.

Example exchange_of_three :
  configurationMiddleware base_env three_items =
  {| sent := [item "zig.zls.enableSnippets"; item "zig.path"; item "zig.zls.zigLibPath"];
     response := inr [VNull; VStr "/usr/bin/zig"; VStr "/opt/zig/lib"];
     events := [] |}.
Proof. reflexivity. Qed.

Example discovery_failure_gives_null :
  response (configurationMiddleware
              (with_zig_path base_env (Abrupt (ThrownError "zig not found"))) three_items)
  = inr [VNull; VNull; VStr "/opt/zig/lib"].
Proof. reflexivity. Qed.

(** Both conflicts are migrated, each from the options as they were read
    before the loop: the second write of "additionalOptions" still holds
    the first entry. *)
Example two_conflicts_migrated :
  configurationMiddleware two_conflicts_env two_items =
  {| sent := [item "zig.zls.enableSnippets"; item "zig.zls.warnStyle"];
     response := inr [VNull; VBool true];
     events :=
       [ ConflictPrompt "zig.zls.enableSnippets";
         ConfigurationUpdate "additionalOptions" (VObj [("zig.zls.warnStyle", VBool true)]);
         ConfigurationUpdate "enableSnippets" (VNum 1);
         ConflictPrompt "zig.zls.warnStyle";
         ConfigurationUpdate "additionalOptions" (VObj [("zig.zls.enableSnippets", VNum 1)]);
         ConfigurationUpdate "warnStyle" (VBool true) ] |}.
Proof. reflexivity. Qed.

(** A name inherited from [Object.prototype] is no request of the
    server: the response is as without the entry. *)
Example inherited_name_changes_no_slot :
  response (configurationMiddleware (with_options base_env [("toString", VNum 3)]) three_items)
  = response (configurationMiddleware base_env three_items).
Proof. reflexivity. Qed.

Lemma bridge_mirrors_the_request_witness :
  exists out,
    response (configurationMiddleware base_env three_items) = inr out /\
    length out = 3 /\
    out !! 0 = Some VNull /\
    out !! 1 = Some (VStr "/usr/bin/zig").
Proof.
  destruct (bridge_mirrors_the_request base_env three_items [VNull; VNull; VNull]
              eq_refl eq_refl) as (out & Hout & Hlen & _ & Hslot).
  exists out. split; [exact Hout|]. split; [exact Hlen|]. split.
  - destruct (Hslot 0 (item "zls.enable_snippets") "zig.zls.enableSnippets"
                eq_refl eq_refl) as [H0|[_ H0]]; [|exact H0|exact H0].
    intros [|[|[|j]]] p' Hlt Hj; simpl in Hj; try lia; [| |done];
      injection Hj as <-; discriminate.
  - destruct (Hslot 1 (item "zls.zig_exe_path") "zig.path" eq_refl eq_refl)
      as [H1|[H1 _]]; [|exact H1|discriminate].
    intros [|[|[|j]]] p' Hlt Hj; simpl in Hj; try lia; [|done].
    injection Hj as <-. discriminate.
Defined.

(** The bridge does not size the array: a continuation that answers one
    value to a request of two items gets a response of one value. *)
Example short_continuation_short_response :
  response (configurationMiddleware short_env two_items) = inr [VBool true] /\
  length [VBool true] <> length two_items.
Proof. split; [reflexivity | discriminate]. Qed.

(** C2 on the code: the option "zig.zls.warnStyle" is requested as the
    first item, no setting of that name is declared, and the response
    keeps the continuation's null; requested as the second item, the
    option's value is in its slot. *)
Theorem additional_option_at_index_zero_dropped :
  own_property "zig.zls.warnStyle" (recorded_indices warn_style_env [item "zls.warn_style"])
    = Some 0 /\
  has_default warn_style_env (slice 8 "zig.zls.warnStyle") = false /\
  response (configurationMiddleware warn_style_env [item "zls.warn_style"]) = inr [VNull] /\
  response (configurationMiddleware warn_style_env two_items) = inr [VNull; VBool true].
Proof. repeat split; reflexivity. Qed.

Lemma conflicts_are_prompted_witness :
  events (configurationMiddleware conflict_env two_items)
    = [ConflictPrompt "zig.zls.enableSnippets"] /\
  response (configurationMiddleware conflict_env two_items)
    = response (configurationMiddleware base_env two_items).
Proof.
  destruct (conflicts_are_prompted conflict_env two_items [VNull; VNull] eq_refl)
    as [(written & Hwritten & Hevents) Hdeclined].
  split.
  - apply Forall2_length in Hwritten.
    destruct written as [|rest [|rest' written]]; try discriminate.
    rewrite Hevents. reflexivity.
  - exact (Hdeclined "zig.zls.enableSnippets" eq_refl (or_introl eq_refl)).
Defined.

(** C5 as stated fails: the additional options name the declared setting
    "enableSnippets", the continuation answers with an error, and the
    bridge returns it without a prompt. *)
Lemma no_prompt_on_protocol_error :
  has_default (with_next conflict_env failing) (slice 8 "zig.zls.enableSnippets") = true /\
  own_property "zig.zls.enableSnippets" (additionalOptions (with_next conflict_env failing))
    = Some (VNum 1) /\
  response (configurationMiddleware (with_next conflict_env failing) two_items)
    = inl {| code := (-32603)%Z; message := "internal error" |} /\
  events (configurationMiddleware (with_next conflict_env failing) two_items) = [].
Proof. repeat split; reflexivity. Qed.

Lemma zig_path_slot_witness :
  exists out,
    response (configurationMiddleware base_env three_items) = inr out /\
    js_get out 1 = VStr "/usr/bin/zig".
Proof.
  apply (zig_path_slot base_env three_items [VNull; VNull; VNull] 1 (item "zls.zig_exe_path"));
    try reflexivity.
  intros [|[|[|j]]] p' Hlt Hj; simpl in Hj; try lia; [|done].
  injection Hj as <-. discriminate.
Defined.

(** C7 as stated fails: the alias is the second item, discovery returns
    "/usr/bin/zig", and the slot holds the value of the additional
    option "zig.path". *)
Lemma zig_path_slot_overridden :
  three_items !! 1 = Some (item "zls.zig_exe_path") /\
  getZigPath override_env = Normal "/usr/bin/zig" /\
  response (configurationMiddleware override_env three_items)
    = inr [VNull; VStr "/opt/other/zig"; VStr "/opt/zig/lib"] /\
  js_get [VNull; VStr "/opt/other/zig"; VStr "/opt/zig/lib"] 1 <> VStr "/usr/bin/zig".
Proof. repeat split; try reflexivity. discriminate. Qed.

Lemma sections_are_rewritten_witness :
  exists p',
    sent (configurationMiddleware base_env three_items) !! 2 = Some p' /\
    scopeUri p' = None /\ section p' = Some "zig.zls.zigLibPath".
Proof.
  apply (sections_are_rewritten base_env three_items 2 (item "zls.zig_lib_path")
           "zls.zig_lib_path"); [reflexivity | reflexivity | discriminate].
Defined.

Lemma only_the_last_duplicate_witness :
  exists out,
    response (configurationMiddleware base_env
                [item "zls.zig_lib_path"; item "zls.enable_snippets"; item "zls.zig_lib_path"])
      = inr out /\
    js_get out 2 = VStr "/opt/zig/lib" /\ js_get out 0 = VNull.
Proof.
  destruct (only_the_last_duplicate_is_processed base_env
              [item "zls.zig_lib_path"; item "zls.enable_snippets"; item "zls.zig_lib_path"]
              [VNull; VNull; VNull] 0 2 (item "zls.zig_lib_path") (item "zls.zig_lib_path")
              "zig.zls.zigLibPath" eq_refl eq_refl eq_refl (Nat.lt_0_succ 1) eq_refl eq_refl)
    as (k & pk & out & Hk & _ & _ & _ & _ & Hout & Hlast & Hearlier).
  injection Hk as <-. exists out. split; [exact Hout|]. split; [exact Hlast|].
  exact (Hearlier 0 (item "zls.zig_lib_path") (Nat.lt_0_succ 1) eq_refl eq_refl).
Defined.

End BridgeFacts.

(** ** Computations that leave the client alone *)

Module EffectFacts.
Import Effect.

Section Quiet.

Context {SemVer : Type}.

Lemma quiet_ret {A : Type} (a : A) : quiet (SemVer := SemVer) (ret a).
Proof. intros w r w' evs [= <- <- <-]. auto. Qed.

Lemma quiet_throw {A : Type} (t : Thrown) : quiet (SemVer := SemVer) (throw (A := A) t).
Proof. intros w r w' evs [= <- <- <-]. auto. Qed.

Lemma quiet_call {A : Type} (c : Completion A) : quiet (SemVer := SemVer) (call c).
Proof. intros w r w' evs [= <- <- <-]. auto. Qed.

Lemma quiet_emit (ev : Event SemVer) : is_client_event ev = false -> quiet (emit ev).
Proof. intros Hev w r w' evs [= <- <- <-]. auto. Qed.

Lemma quiet_perform (o : option Thrown) (ev : Event SemVer) :
  is_client_event ev = false -> quiet (perform o ev).
Proof. intros Hev. destruct o; [apply quiet_throw | by apply quiet_emit]. Qed.

Lemma quiet_globalState_get (key : string) : quiet (SemVer := SemVer) (globalState_get key).
Proof. intros w r w' evs [= <- <- <-]. auto. Qed.

Lemma quiet_globalState_update (key : string) (value : Response) :
  quiet (SemVer := SemVer) (globalState_update key value).
Proof. intros w r w' evs [= <- <- <-]. auto. Qed.

Lemma quiet_bind {A B : Type} (c : M SemVer A) (k : A -> M SemVer B) :
  quiet c -> (forall a, quiet (k a)) -> quiet (bind c k).
Proof.
  intros Hc Hk w r w' evs. unfold bind.
  destruct (c w) as [[[a|t] w1] evs1] eqn:Hcw.
  - destruct (k a w1) as [[r2 w2] evs2] eqn:Hkw. intros [= <- <- <-].
    destruct (Hc _ _ _ _ Hcw) as (? & ? & ?), (Hk a _ _ _ _ Hkw) as (? & ? & ?).
    repeat split; [congruence | congruence | by apply Forall_app].
  - intros [= <- <- <-]. by apply (Hc _ _ _ _ Hcw).
Qed.

Lemma quiet_try_catch {A : Type} (c : M SemVer A) (h : Thrown -> M SemVer A) :
  quiet c -> (forall t, quiet (h t)) -> quiet (try_catch c h).
Proof.
  intros Hc Hh w r w' evs. unfold try_catch.
  destruct (c w) as [[[a|t] w1] evs1] eqn:Hcw.
  - intros [= <- <- <-]. by apply (Hc _ _ _ _ Hcw).
  - destruct (h t w1) as [[r2 w2] evs2] eqn:Hhw. intros [= <- <- <-].
    destruct (Hc _ _ _ _ Hcw) as (? & ? & ?), (Hh t _ _ _ _ Hhw) as (? & ? & ?).
    repeat split; [congruence | congruence | by apply Forall_app].
Qed.

End Quiet.

Create HintDb quiet.
#[global] Hint Resolve quiet_ret quiet_throw quiet_call quiet_globalState_get
  quiet_globalState_update : quiet.

(** Through the binds, the handlers and the case distinctions of a
    definition. *)
Ltac quiet_steps :=
  repeat first
    [ solve [auto with quiet]
    | apply quiet_bind; [|intros ?]
    | apply quiet_try_catch; [|intros ?]
    | apply quiet_emit; reflexivity
    | apply quiet_perform; reflexivity
    | match goal with
      | |- quiet (if ?b then _ else _) => destruct b
      | |- quiet (match ?x with _ => _ end) => destruct x
      end ].

End EffectFacts.

(** ** The resolver *)

Module ResolverFacts.
Import Effect EffectFacts Resolver.

Section Resolver.

Context {SemVer : Type} {SV : SemVerLib SemVer}.

Lemma quiet_fetchVersion (H : Host SemVer) (zigVersion : SemVer) (useCache : bool) :
  quiet (fetchVersion H zigVersion useCache).
Proof. unfold fetchVersion, query, select. quiet_steps. Qed.

(** Distinct compiler versions have distinct keys. *)
Lemma cacheKey_inj (a b : SemVer) : cacheKey a = cacheKey b -> raw a = raw b.
Proof. unfold cacheKey. apply String.app_inj. Qed.

(** After the [try] statement nothing is persisted. *)
Lemma select_world (H : Host SemVer) (response : Response) (w : World) : (select H response w).1.2 = w.
Proof.
  unfold select. destruct (js_in "message" response); [done|].
  destruct (js_in (getHostZigName H) response); [|done]. simpl.
  unfold bind, call. by destruct (SemVer_new _).
Qed.

Lemma fetchVersion_cached (H : Host SemVer) (zigVersion : SemVer) (w : World) (t : Thrown) (r : Response) :
  axios_get H (raw zigVersion) = Abrupt t ->
  globalState w !! cacheKey zigVersion = Some r ->
  fetchVersion H zigVersion true w = select H r w.
Proof.
  intros Hq Hc. unfold fetchVersion, query, bind, try_catch, call, globalState_get.
  rewrite Hq, Hc. simpl. by destruct (select H r w) as [[? ?] ?].
Qed.

(** C4, as amended: when the query fails and the store holds a response
    under the key of this compiler version, [fetchVersion] with the cache
    on goes on with exactly that response and persists nothing; when the
    store holds none and what was thrown is an [Error], it shows the
    failure and returns null. *)
Theorem fetch_falls_back_to_cache (H : Host SemVer) (zigVersion : SemVer) (w : World) (t : Thrown) :
  axios_get H (raw zigVersion) = Abrupt t ->
  (forall r, globalState w !! cacheKey zigVersion = Some r ->
     fetchVersion H zigVersion true w = select H r w /\
     (fetchVersion H zigVersion true w).1.2 = w) /\
  (forall message, globalState w !! cacheKey zigVersion = None -> t = ThrownError message ->
     fetchVersion H zigVersion true w =
       (Normal None, w, [ShowErrorMessage (FailedToQuery message)])).
Proof.
  intros Hq. split.
  - intros r Hc. rewrite (fetchVersion_cached H zigVersion w t r Hq Hc).
    split; [done | apply select_world].
  - intros message Hc ->.
    unfold fetchVersion, query, bind, try_catch, call, globalState_get.
    by rewrite Hq, Hc.
Qed.

(** C9: with the cache on, a response with a "message" that the service
    did deliver is persisted under the key of the compiler version
    before it is looked at; the message is shown and null returned. A
    later call whose query fails finds it there, shows the same message
    and returns null. *)
Theorem failure_payload_is_cached_and_replayed (H H' : Host SemVer) (zigVersion : SemVer)
    (w : World) (payload : Response) (t : Thrown) :
  axios_get H (raw zigVersion) = Normal payload ->
  js_in "message" payload = true ->
  axios_get H' (raw zigVersion) = Abrupt t ->
  let shown := [ShowErrorMessage (SemVer := SemVer) (UnableToFetch (js_prop "message" payload))] in
  let w1 := {| globalState := <[cacheKey zigVersion := payload]> (globalState w);
               client := client w; spawned := spawned w |} in
  fetchVersion H zigVersion true w = (Normal None, w1, shown) /\
  globalState w1 !! cacheKey zigVersion = Some payload /\
  fetchVersion H' zigVersion true w1 = (Normal None, w1, shown).
Proof.
  intros Hq Hm Hq' shown w1.
  assert (Hstored : globalState w1 !! cacheKey zigVersion = Some payload)
    by apply lookup_insert_eq.
  assert (Hsel : forall H0 w0, select H0 payload w0 = (Normal None, w0, shown)).
  { intros H0 w0. unfold select. by rewrite Hm. }
  split; [|split; [done|]].
  - unfold fetchVersion, query, bind, try_catch, call, globalState_update.
    rewrite Hq. simpl. fold w1. by rewrite Hsel.
  - rewrite (fetchVersion_cached H' zigVersion w1 t payload Hq' Hstored).
    apply Hsel.
Qed.

End Resolver.

End ResolverFacts.

(** ** The locator and the verifier *)

Module LocatorFacts.
Import Effect EffectFacts ResolverFacts Locator.

#[global] Hint Resolve quiet_fetchVersion : quiet.

Section Locator.

Context {SemVer : Type} {SV : SemVerLib SemVer}.

Lemma quiet_getZLSPath (H : Host SemVer) : quiet (getZLSPath H).
Proof.
  unfold getZLSPath, resolve_exe, check_version, install.
  repeat first [progress quiet_steps | progress cbv zeta].
Qed.

Lemma bind_ret_l {A B : Type} (a : A) (k : A -> M SemVer B) (w : World) :
  bind (ret a) k w = k a w.
Proof. unfold bind, ret. by destruct (k a w) as [[? ?] ?]. Qed.

(** A configured path is taken as it is, with no version to expect. *)
Lemma resolve_exe_override (H : Host SemVer) (w : World) (p : string) :
  config_path H = Some p -> p <> "" ->
  resolve_exe H w = (Normal (Some (p, None)), w, []).
Proof.
  intros Hp Hne. unfold resolve_exe, truthy_setting. rewrite Hp.
  by destruct p.
Qed.

(** Without a configured path, a path comes with the version the
    resolver chose. *)
Lemma resolve_exe_auto (H : Host SemVer) (w w1 : World) (p : string)
    (expected : option SemVer) (evs1 : list (Event SemVer)) :
  truthy_setting (config_path H) = false ->
  resolve_exe H w = (Normal (Some (p, expected)), w1, evs1) ->
  exists zigVersion result w0 evs0,
    zig_version H = Some zigVersion /\
    Resolver.fetchVersion H zigVersion true w = (Normal (Some result), w0, evs0) /\
    p = installed_exe H result /\
    expected = Some (Resolver.version result).
Proof.
  intros Hp. unfold resolve_exe. rewrite Hp.
  destruct (is_on (config_enabled H)); [|done]. simpl.
  destruct (zig_version H) as [zigVersion|]; [|done].
  unfold bind.
  destruct (Resolver.fetchVersion H zigVersion true w) as [[[[result|]|t] w0] evs0] eqn:Hf;
    [| done | done].
  destruct (existsSync H (installed_exe H result)).
  - intros [= <- <- <- <-]. by exists zigVersion, result, w0, evs0.
  - destruct (install H result w0) as [[[[|]|t] w2] evs2]; [| done | done].
    intros [= <- <- <- <-]. by exists zigVersion, result, w0, evs0.
Qed.

Lemma getZLSPath_resolved (H : Host SemVer) (w w1 : World) (p : string)
    (expected : option SemVer) (evs1 : list (Event SemVer)) :
  resolve_exe H w = (Normal (Some (p, expected)), w1, evs1) ->
  getZLSPath H w =
    match getVersion H p "--version" with
    | None => (Normal None, w1, evs1 ++ [ShowErrorMessage (UnableToCheckVersion p)])
    | Some v =>
        match expected with
        | Some e =>
            if Z.eqb (compare v e) 0
            then (Normal (Some {| exe := p; version := v |}), w1, evs1 ++ [])
            else (Normal None, w1, evs1 ++ [ShowErrorMessage (UnexpectedVersion e p v)])
        | None => (Normal (Some {| exe := p; version := v |}), w1, evs1 ++ [])
        end
    end.
Proof.
  intros Hr. unfold getZLSPath. unfold bind at 1. rewrite Hr.
  unfold check_version. destruct (getVersion H p "--version") as [v|]; [|done].
  destruct expected as [e|]; [|done].
  by destruct (Z.eqb (compare v e) 0).
Qed.

(** C6: the check of what the executable reports. With a configured
    path there is no expected version: a report that parses is accepted,
    one that does not is an error and null. Without one, the expected
    version is the resolver's: no report is an error and null, a report
    that does not compare equal to it is an error and null, one that
    does is accepted. On null a restart ends there: no client is
    started. *)
Theorem version_is_verified (H : Host SemVer) (w : World) :
  (forall p, config_path H = Some p -> p <> "" ->
     getZLSPath H w =
       match getVersion H p "--version" with
       | None => (Normal None, w, [ShowErrorMessage (UnableToCheckVersion p)])
       | Some v => (Normal (Some {| exe := p; version := v |}), w, [])
       end) /\
  (forall p expected w1 evs1,
     truthy_setting (config_path H) = false ->
     resolve_exe H w = (Normal (Some (p, expected)), w1, evs1) ->
     exists zigVersion result w0 evs0,
       Resolver.fetchVersion H zigVersion true w = (Normal (Some result), w0, evs0) /\
       expected = Some (Resolver.version result) /\
       getZLSPath H w =
         match getVersion H p "--version" with
         | None => (Normal None, w1, evs1 ++ [ShowErrorMessage (UnableToCheckVersion p)])
         | Some v =>
             if Z.eqb (compare v (Resolver.version result)) 0
             then (Normal (Some {| exe := p; version := v |}), w1, evs1)
             else (Normal None, w1,
                   evs1 ++ [ShowErrorMessage
                              (UnexpectedVersion (Resolver.version result) p v)])
         end) /\
  (forall w1 evs1,
     negb (truthy_setting (config_path H)) && negb (is_on (config_enabled H)) = false ->
     getZLSPath H w = (Normal None, w1, evs1) ->
     Lifecycle.restartClient H w = (Normal tt, w1, evs1) /\
     Forall (fun ev => is_client_event ev = false) evs1).
Proof.
  split; [|split].
  - intros p Hp Hne.
    rewrite (getZLSPath_resolved H w w p None [] (resolve_exe_override H w p Hp Hne)).
    by destruct (getVersion H p "--version").
  - intros p expected w1 evs1 Hp Hr.
    destruct (resolve_exe_auto H w w1 p expected evs1 Hp Hr)
      as (zigVersion & result & w0 & evs0 & _ & Hf & _ & ->).
    exists zigVersion, result, w0, evs0. split; [done|]. split; [done|].
    rewrite (getZLSPath_resolved H w w1 p _ evs1 Hr).
    destruct (getVersion H p "--version") as [v|]; [|done].
    by rewrite app_nil_r.
  - intros w1 evs1 Hcond Hget. split.
    + unfold Lifecycle.restartClient. rewrite Hcond. unfold bind. rewrite Hget.
      simpl. by rewrite app_nil_r.
    + by apply (quiet_getZLSPath H w _ _ _ Hget).
Qed.

End Locator.

End LocatorFacts.

(** ** The lifecycle *)

Module LifecycleFacts.
Import Effect EffectFacts LocatorFacts Lifecycle.

Section Lifecycle.

Context {SemVer : Type} {SV : SemVerLib SemVer}.

Lemma live_after_app (evs evs' : list (Event SemVer)) (live : list ClientId) :
  live_after (evs ++ evs') live = live_after evs' (live_after evs live).
Proof.
  revert live. induction evs as [|ev evs IH]; intros live; [done|].
  destruct ev; simpl; apply IH.
Qed.

Lemma live_after_quiet (evs : list (Event SemVer)) (live : list ClientId) :
  Forall (fun ev => is_client_event ev = false) evs -> live_after evs live = live.
Proof.
  intros Hq. revert live. induction Hq as [|ev evs Hev _ IH]; intros live; [done|].
  destruct ev; simpl; try done; apply IH.
Qed.

Lemma quiet_not_stopped (evs : list (Event SemVer)) (c : ClientId) :
  Forall (fun ev => is_client_event ev = false) evs ->
  Forall (fun ev => ev <> ClientStopped c /\ ev <> ClientDisposed c) evs.
Proof.
  intros Hq. eapply Forall_impl; [exact Hq|].
  intros ev Hev. split; intros ->; discriminate.
Qed.

Lemma only_new_remains (new old : ClientId) :
  new <> old -> filter (fun c' => c' <> old) [new; old] = [new].
Proof.
  intros Hne. rewrite filter_cons_True by done.
  rewrite filter_cons_False by (intros Hf; by apply Hf). done.
Qed.

(** C3: with a client running (one made earlier, so named below the
    count of clients), a restart whose calls all resolve starts the new
    client, then stops and disposes of the old one, and after every
    prefix of its events a client is running; when [startClient] throws,
    the old client is neither stopped nor disposed of, [client] still
    holds it, a warning is shown and [restartClient] completes. *)
Theorem restart_starts_new_before_stopping_old (H : Host SemVer) (w w1 : World)
    (old : ClientId) (located : Locator.Located SemVer) (evs1 : list (Event SemVer)) :
  negb (truthy_setting (config_path H)) && negb (is_on (config_enabled H)) = false ->
  client w = Some old -> old < spawned w ->
  Locator.getZLSPath H w = (Normal (Some located), w1, evs1) ->
  let new := spawned w in
  let args := if config_debugLog H then ["--enable-debug-log"] else [] in
  let started :=
    [ClientStarted new (Locator.exe located) args; FormattingFeatureDisposed new] in
  let stopped := [ClientStopped (SemVer := SemVer) old; ClientDisposed old] in
  (client_start H new (Locator.exe located) args = None ->
   formatting_dispose H new = None ->
   client_stop H old = None -> client_dispose H old = None ->
   exists w2,
     restartClient H w = (Normal tt, w2, evs1 ++ started ++ stopped) /\
     client w2 = Some new /\
     (forall n, live_after (take n (evs1 ++ started ++ stopped)) [old] <> []) /\
     live_after (evs1 ++ started ++ stopped) [old] = [new]) /\
  (forall t w' evs',
     startClient H (Locator.exe located) w1 = (Abrupt t, w', evs') ->
     exists w2 m,
       restartClient H w = (Normal tt, w2, evs1 ++ evs' ++ [ShowWarningMessage m]) /\
       client w2 = Some old /\
       Forall (fun ev => ev <> ClientStopped old /\ ev <> ClientDisposed old)
         (evs1 ++ evs' ++ [ShowWarningMessage m])).
Proof.
  intros Hcond Hclient Hold Hget new args started stopped.
  destruct (quiet_getZLSPath H w _ _ _ Hget) as (Hc1 & Hs1 & Hq1).
  rewrite Hclient in Hc1.
  assert (Hne : new <> old) by (subst new; lia).
  split.
  - intros Hstart Hfmt Hstop Hdisp.
    eexists. split; [|split; [|split]].
    + unfold restartClient. rewrite Hcond. unfold bind at 1. rewrite Hget.
      unfold try_catch, bind, startClient, stopClient, bind, new_client, get_client,
        set_client, perform, emit, ret. simpl.
      rewrite Hs1. fold new. fold args. rewrite Hstart, Hfmt. simpl.
      rewrite Hc1, Hstop, Hdisp. simpl. reflexivity.
    + done.
    + intros n. destruct (decide (n <= length evs1)) as [Hn|Hn].
      * rewrite take_app_le by done. rewrite live_after_quiet; [done|].
        by apply Forall_take.
      * rewrite take_app_ge by lia. rewrite live_after_app, (live_after_quiet evs1) by done.
        destruct (n - length evs1) as [|[|[|[|k]]]]; simpl; try done.
        all: rewrite ?take_nil; simpl; by rewrite only_new_remains.
    + rewrite live_after_app, (live_after_quiet evs1) by done. simpl.
      by apply only_new_remains.
  - intros t w' evs' Hthrow.
    assert (Hstarted : client w' = Some old /\
              Forall (fun ev => ev <> ClientStopped old /\ ev <> ClientDisposed old) evs').
    { revert Hthrow.
      unfold startClient, bind, new_client, perform, emit, throw, ret. simpl.
      destruct (client_start H _ _ _); [intros [= <- <- <-]; by split|].
      simpl. destruct (formatting_dispose H _); [|done].
      intros [= <- <- <-]. split; [done|].
      apply Forall_cons. split; [by split|done]. }
    destruct Hstarted as [Hc' Hev'].
    exists w'.
    exists (match t with ThrownError message => FailedToRunWith message | ThrownOther _ => FailedToRun end).
    split; [|split].
    + unfold restartClient. rewrite Hcond. unfold bind at 1. rewrite Hget.
      unfold try_catch. unfold bind at 1. rewrite Hthrow.
      destruct t; reflexivity.
    + done.
    + apply Forall_app. split; [by apply quiet_not_stopped|].
      apply Forall_app. split; [done|].
      apply Forall_cons. split; [by split|done].
Qed.

End Lifecycle.

End LifecycleFacts.

(** ** The statements on concrete hosts *)

Module Runs.
Import Effect Fixtures.

Example restart_trace :
  (Lifecycle.restartClient (auto_host (Some v0_13_0)) running_world).2 =
  [ Download "/storage/zls/0.13.0"
      (VStr "https://builds.zigtools.org/zls-linux-x86_64-0.13.0.tar.xz")
      (VStr "ec4c1b45caf88e2bcb9ebb16c670603cc596e4f621b96184dfbe837b39cd8410");
    ClientStarted 1 "/storage/zls/0.13.0/zls" [];
    FormattingFeatureDisposed 1;
    ClientStopped 0;
    ClientDisposed 0 ].
Proof. reflexivity. Qed.

Example mismatch_is_reported :
  (Locator.getZLSPath (auto_host (Some v0_12_1)) fresh_world).2 =
  [ Download "/storage/zls/0.13.0"
      (VStr "https://builds.zigtools.org/zls-linux-x86_64-0.13.0.tar.xz")
      (VStr "ec4c1b45caf88e2bcb9ebb16c670603cc596e4f621b96184dfbe837b39cd8410");
    ShowErrorMessage (UnexpectedVersion v0_13_0 "/storage/zls/0.13.0/zls" v0_12_1) ].
Proof. reflexivity. Qed.

Example unverified_binary_is_not_started :
  let r := Lifecycle.restartClient
             (with_start (override_host None) None) running_world in
  r.2 = [ShowErrorMessage (UnableToCheckVersion "/home/me/zls/zig-out/bin/zls")] /\
  client r.1.2 = Some 0.
Proof. split; reflexivity. Qed.

Lemma fetch_falls_back_to_cache_witness :
  Resolver.fetchVersion offline_host v0_13_0 true cached_world
    = Resolver.select offline_host success_payload cached_world /\
  Resolver.fetchVersion offline_host v0_13_0 true fresh_world
    = (Normal None, fresh_world,
       [ShowErrorMessage (FailedToQuery "getaddrinfo ENOTFOUND releases.zigtools.org")]).
Proof.
  split.
  - apply (ResolverFacts.fetch_falls_back_to_cache offline_host v0_13_0 cached_world
             (ThrownError "getaddrinfo ENOTFOUND releases.zigtools.org") eq_refl).
    reflexivity.
  - apply (ResolverFacts.fetch_falls_back_to_cache offline_host v0_13_0 fresh_world
             (ThrownError "getaddrinfo ENOTFOUND releases.zigtools.org") eq_refl);
      reflexivity.
Defined.

(** C4 as stated fails: the query fails with a value that is no [Error],
    nothing is stored under the key, and [fetchVersion] throws that value
    on: no message is shown and null is not returned. *)
Lemma rejection_that_is_no_error_is_rethrown :
  axios_get cancelled_host (raw v0_13_0) = Abrupt (ThrownOther (VStr "cancelled")) /\
  globalState fresh_world !! Resolver.cacheKey v0_13_0 = None /\
  Resolver.fetchVersion cancelled_host v0_13_0 true fresh_world
    = (Abrupt (ThrownOther (VStr "cancelled")), fresh_world, []).
Proof. repeat split; reflexivity. Qed.

Lemma failure_payload_witness :
  (Resolver.fetchVersion unsupported_host v0_13_0 true fresh_world).1.1 = Normal None /\
  Resolver.fetchVersion offline_host v0_13_0 true
    (Resolver.fetchVersion unsupported_host v0_13_0 true fresh_world).1.2
  = (Normal None,
     (Resolver.fetchVersion unsupported_host v0_13_0 true fresh_world).1.2,
     [ShowErrorMessage (UnableToFetch (VStr "Zig 0.9.0 is not supported by ZLS"))]).
Proof.
  destruct (ResolverFacts.failure_payload_is_cached_and_replayed unsupported_host
              offline_host v0_13_0 fresh_world failure_payload
              (ThrownError "getaddrinfo ENOTFOUND releases.zigtools.org")
              eq_refl eq_refl eq_refl) as (Hfirst & _ & Hlater).
  rewrite Hfirst. split; [reflexivity | exact Hlater].
Defined.

Lemma version_is_verified_witness :
  Locator.getZLSPath (override_host (Some v0_12_1)) fresh_world
    = (Normal (Some {| Locator.exe := "/home/me/zls/zig-out/bin/zls";
                       Locator.version := v0_12_1 |}), fresh_world, []) /\
  (Locator.getZLSPath (auto_host (Some v0_12_1)) fresh_world).1.1 = Normal None.
Proof.
  split.
  - destruct (LocatorFacts.version_is_verified (override_host (Some v0_12_1)) fresh_world)
      as (Hoverride & _ & _).
    rewrite (Hoverride "/home/me/zls/zig-out/bin/zls" eq_refl); [reflexivity | discriminate].
  - destruct (LocatorFacts.version_is_verified (auto_host (Some v0_12_1)) fresh_world)
      as (_ & Hauto & _).
    assert (Hresolved :
      Locator.resolve_exe (auto_host (Some v0_12_1)) fresh_world
      = (Normal (Some ("/storage/zls/0.13.0/zls", Some v0_13_0)),
         (Locator.resolve_exe (auto_host (Some v0_12_1)) fresh_world).1.2,
         (Locator.resolve_exe (auto_host (Some v0_12_1)) fresh_world).2)) by reflexivity.
    destruct (Hauto _ _ _ _ eq_refl Hresolved)
      as (zigVersion & result & w0 & evs0 & _ & Hexp & Hrun).
    injection Hexp as Hexp. rewrite <- Hexp in Hrun. rewrite Hrun. reflexivity.
Defined.

Lemma restart_witness :
  (Lifecycle.restartClient (auto_host (Some v0_13_0)) running_world).1.1 = Normal tt /\
  client (Lifecycle.restartClient (auto_host (Some v0_13_0)) running_world).1.2 = Some 1 /\
  client (Lifecycle.restartClient
            (with_start (auto_host (Some v0_13_0)) (Some (ThrownError "spawn ENOENT")))
            running_world).1.2 = Some 0.
Proof.
  pose (located := {| Locator.exe := "/storage/zls/0.13.0/zls"; Locator.version := v0_13_0 |}).
  assert (Hlocated : forall start,
    Locator.getZLSPath (with_start (auto_host (Some v0_13_0)) start) running_world
    = (Normal (Some located),
       (Locator.getZLSPath (auto_host (Some v0_13_0)) running_world).1.2,
       (Locator.getZLSPath (auto_host (Some v0_13_0)) running_world).2))
    by (intros start; reflexivity).
  destruct (LifecycleFacts.restart_starts_new_before_stopping_old
              (with_start (auto_host (Some v0_13_0)) None) running_world _ 0 located _
              eq_refl eq_refl Nat.lt_0_1 (Hlocated None)) as [Hok _].
  destruct (Hok eq_refl eq_refl eq_refl eq_refl) as (w2 & Hrun & Hclient & _).
  change (with_start (auto_host (Some v0_13_0)) None) with (auto_host (Some v0_13_0)) in Hrun.
  rewrite Hrun. split; [reflexivity|]. split; [exact Hclient|].
  destruct (LifecycleFacts.restart_starts_new_before_stopping_old
              (with_start (auto_host (Some v0_13_0)) (Some (ThrownError "spawn ENOENT")))
              running_world _ 0 located _
              eq_refl eq_refl Nat.lt_0_1 (Hlocated _)) as [_ Hthrow].
  assert (Hstart :
    Lifecycle.startClient
      (with_start (auto_host (Some v0_13_0)) (Some (ThrownError "spawn ENOENT")))
      (Locator.exe located)
      (Locator.getZLSPath (auto_host (Some v0_13_0)) running_world).1.2
    = (Abrupt (ThrownError "spawn ENOENT"),
       (Lifecycle.startClient
          (with_start (auto_host (Some v0_13_0)) (Some (ThrownError "spawn ENOENT")))
          (Locator.exe located)
          (Locator.getZLSPath (auto_host (Some v0_13_0)) running_world).1.2).1.2,
       [])) by reflexivity.
  destruct (Hthrow _ _ _ Hstart) as (w3 & m & Hrun' & Hclient' & _).
  rewrite Hrun'. exact Hclient'.
Defined.

End Runs.

(** ** More on the configuration bridge *)

Module BridgeMore.
Import Bridge JsFacts BridgeFacts Fixtures MoreFixtures.

Section More.

Context (E : Env).

(** X1: a section other than the compiler path that the additional
    options do not name: its slot holds the normalized setting when the
    setting is a non-empty string, and what the continuation returned
    otherwise. *)
Theorem plain_section_slot (items : list ConfigurationItem) (arr : list LSPAny)
    (name : string) (idx : nat) :
  next E (sent (configurationMiddleware E items)) = inr arr ->
  own_property name (recorded_indices E items) = Some idx ->
  name <> "zig.path" ->
  own_property name (additionalOptions E) = None ->
  exists out,
    response (configurationMiddleware E items) = inr out /\
    js_get out idx =
      match configuration_get E (slice 8 name) with
      | VStr v => if truthy_string v then VStr (handleConfigOption E v) else js_get arr idx
      | _ => js_get arr idx
      end.
Proof.
  intros Hnext Hown Hzig Hnone. rewrite sent_unfold in Hnext.
  rewrite configurationMiddleware_unfold, Hnext. simpl. eexists. split; [done|].
  apply (merge_additional_preserves E (fun r => js_get r idx = _)).
  - intros n k r Hin Hk Hr. rewrite js_get_set_ne; [done|].
    intros Heq. rewrite Heq in Hk.
    assert (n = name) as -> by (by eapply recorded_index_inj).
    by apply own_property_None in Hnone.
  - apply (inject_zig_path_preserves E (fun r => js_get r idx = _)).
    + intros k v r Hk Hr. rewrite js_get_set_ne; [done|].
      intros ->. apply Hzig. by eapply recorded_index_inj.
    + apply normalize_strings_slot.
      * apply recorded_indices_NoDup.
      * intros n i Hin ->. apply (recorded_index_inj E items n name idx); [|done].
        apply elem_of_own_property; [apply recorded_indices_NoDup | done].
      * by apply own_property_elem_of.
Qed.

Lemma merge_additional_value (m : OptionIndices) (names : list string) (result : list LSPAny)
    (name : string) (k : nat) :
  (forall n, own_property n m = Some (S k) -> n = name) ->
  name ∈ names -> own_property name m = Some (S k) ->
  (forall r, (visit_option E m name r).1 = apply_option E m name r) ->
  js_get (merge_additional E m names result).1 (S k) = js_prop name (additionalOptions E).
Proof.
  intros Hinj Hin Hown Happlies. revert result.
  induction names as [|n rest IH]; intros result; [by apply not_elem_of_nil in Hin|].
  assert (Hkeep : forall r names',
    js_get r (S k) = js_prop name (additionalOptions E) ->
    js_get (merge_additional E m names' r).1 (S k) = js_prop name (additionalOptions E)).
  { intros r names' Hr.
    apply (merge_additional_preserves E (fun r => js_get r (S k) = _)); [|done].
    intros n' i r' _ Hn' Hr'. destruct (decide (i = k)) as [->|Hne].
    - rewrite (Hinj n' Hn'). apply js_get_set_eq.
    - rewrite js_get_set_ne; [done|lia]. }
  simpl. destruct (visit_option E m n result) as [result' evs] eqn:Hv.
  destruct (decide (n = name)) as [->|Hne].
  - assert (Hr' : js_get result' (S k) = js_prop name (additionalOptions E)).
    { change result' with (result', evs).1. rewrite <- Hv, Happlies.
      unfold apply_option, optionIndices_get. rewrite Hown. apply js_get_set_eq. }
    specialize (Hkeep result' rest Hr').
    by destruct (merge_additional E m rest result').
  - apply elem_of_cons in Hin as [?|Hin]; [done|].
    specialize (IH Hin result'). by destruct (merge_additional E m rest result').
Qed.

(** X2: an additional option that the server requested at an index
    other than the first, and that either names no declared setting or
    was answered with "Use ... instead": its value is the response's
    slot, whatever the passes before wrote there. *)
Theorem requested_option_gets_value (items : list ConfigurationItem) (arr : list LSPAny)
    (name : string) (v : LSPAny) (k : nat) :
  next E (sent (configurationMiddleware E items)) = inr arr ->
  own_property name (additionalOptions E) = Some v ->
  own_property name (recorded_indices E items) = Some (S k) ->
  has_default E (slice 8 name) = false \/
  showWarningMessage E name = Some (label_use name) ->
  exists out, response (configurationMiddleware E items) = inr out /\ js_get out (S k) = v.
Proof.
  intros Hnext Hv Hown Hcase. rewrite sent_unfold in Hnext.
  rewrite configurationMiddleware_unfold, Hnext. simpl. eexists. split; [done|].
  rewrite (merge_additional_value _ _ _ name k).
  - unfold js_prop. by rewrite Hv.
  - intros n Hn. by eapply recorded_index_inj.
  - apply own_property_elem_of in Hv. apply list_elem_of_fmap. by exists (name, v).
  - done.
  - intros r. unfold visit_option. destruct (has_default E (slice 8 name)) eqn:Hd; [|done].
    destruct Hcase as [?|Ha]; [done|]. by rewrite Ha, String.eqb_refl.
Qed.

(** X3: the answer "Use ... instead" to the prompt about an entry that
    names a declared setting: the settings are written twice, first the
    additional options without that entry and with every other entry as
    it was read, then the entry's value under the declared name. *)
Theorem migration_moves_the_entry (items : list ConfigurationItem) (arr : list LSPAny)
    (name : string) (v : LSPAny) :
  next E (sent (configurationMiddleware E items)) = inr arr ->
  own_property name (additionalOptions E) = Some v ->
  has_default E (slice 8 name) = true ->
  showWarningMessage E name = Some (label_use name) ->
  let moved := omit name (additionalOptions E) in
  ConfigurationUpdate "additionalOptions" (VObj moved) ∈ events (configurationMiddleware E items) /\
  ConfigurationUpdate (slice 8 name) v ∈ events (configurationMiddleware E items) /\
  own_property name moved = None /\
  forall key, key <> name -> own_property key moved = own_property key (additionalOptions E).
Proof.
  intros Hnext Hv Hd Ha moved. rewrite sent_unfold in Hnext.
  rewrite configurationMiddleware_unfold, Hnext. simpl.
  rewrite merge_additional_events.
  assert (Hturn : (visit_option E [] name []).2 =
            [ ConflictPrompt name; ConfigurationUpdate "additionalOptions" (VObj moved);
              ConfigurationUpdate (slice 8 name) v ]).
  { unfold visit_option. rewrite Hd, Ha, String.eqb_refl. simpl.
    unfold js_prop. by rewrite Hv. }
  assert (Hname : name ∈ (additionalOptions E).*1).
  { apply own_property_elem_of in Hv. apply list_elem_of_fmap. by exists (name, v). }
  split; [|split; [|split]].
  - apply elem_of_concat_map. exists name. split; [done|]. rewrite Hturn.
    apply list_elem_of_further, list_elem_of_here.
  - apply elem_of_concat_map. exists name. split; [done|]. rewrite Hturn.
    apply list_elem_of_further, list_elem_of_further, list_elem_of_here.
  - apply omit_own_eq.
  - intros key Hne. by apply omit_own_ne.
Qed.

Lemma merge_additional_skipped (m : OptionIndices) (names : list string)
    (result : list LSPAny) :
  (forall name, name ∈ names -> own_property name m = None) ->
  (merge_additional E m names result).1 = result.
Proof.
  revert result. induction names as [|name rest IH]; intros result Hnone; [done|].
  simpl. pose proof (additional_option_skipped E m name result) as Hskip.
  destruct (visit_option E m name result) as [result' evs]. simpl in Hskip.
  rewrite Hskip in * by (right; apply Hnone, list_elem_of_here).
  specialize (IH result). destruct (merge_additional E m rest result) as [result'' evs'].
  simpl in *. apply IH. intros n Hn. apply Hnone. by apply list_elem_of_further.
Qed.

(** X4: additional options of which the server requested none leave the
    response as it is without them: no section is added to it. *)
Theorem unrequested_options_change_nothing (items : list ConfigurationItem) :
  (forall name, name ∈ (additionalOptions E).*1 ->
     own_property name (recorded_indices E items) = None) ->
  response (configurationMiddleware E items) =
  response (configurationMiddleware (without_options E) items).
Proof.
  intros Hnone. rewrite !configurationMiddleware_unfold.
  change (sent_items (without_options E) items) with (sent_items E items).
  change (next (without_options E)) with (next E).
  destruct (next E (sent_items E items)) as [err|arr]; [done|].
  simpl. f_equal. by rewrite merge_additional_skipped.
Qed.

(** X5: when no item names the alias "zls.zig_exe_path", the response
    does not depend on what the discovery of the compiler does. *)
Theorem discovery_matters_for_the_alias_only (items : list ConfigurationItem)
    (discovery : Completion string) :
  (forall i p, items !! i = Some p -> section p <> Some "zls.zig_exe_path") ->
  response (configurationMiddleware E items) =
  response (configurationMiddleware (with_zig_path E discovery) items).
Proof.
  intros Hnone.
  assert (Hown : own_property "zig.path" (recorded_indices E items) = None).
  { destruct (own_property "zig.path" (recorded_indices E items)) as [idx|] eqn:Hown; [|done].
    apply recorded_index_last in Hown as (p & Hp & Hn & _).
    apply rewritten_name_zig_path in Hn. by destruct (Hnone idx p). }
  rewrite !configurationMiddleware_unfold.
  change (sent_items (with_zig_path E discovery) items) with (sent_items E items).
  change (next (with_zig_path E discovery)) with (next E).
  destruct (next E (sent_items E items)) as [err|arr]; [done|].
  simpl. f_equal.
  change (recorded_indices (with_zig_path E discovery) items) with (recorded_indices E items).
  unfold inject_zig_path, optionIndices_get. rewrite Hown. simpl.
  reflexivity.
Qed.

(** A protocol error of the continuation is the bridge's answer as
    it is; nothing is shown and no setting is written, whatever the
    additional options hold, though the items were rewritten. *)
Theorem protocol_error_is_passed_on (items : list ConfigurationItem) (err : ResponseError) :
  next E (sent (configurationMiddleware E items)) = inl err ->
  response (configurationMiddleware E items) = inl err /\
  events (configurationMiddleware E items) = [] /\
  sent (configurationMiddleware E items) = sent_items E items.
Proof.
  intros Hnext. rewrite sent_unfold in Hnext.
  by rewrite configurationMiddleware_unfold, Hnext.
Qed.

(** X6: the index map is well formed: a recorded index lies within the
    request, the item there is sent on under the recorded name, and no
    two names share an index. *)
Theorem index_map_well_formed (items : list ConfigurationItem) (name : string) (idx : nat) :
  own_property name (recorded_indices E items) = Some idx ->
  idx < length items /\
  (exists p, sent (configurationMiddleware E items) !! idx = Some p /\ section p = Some name) /\
  forall other, own_property other (recorded_indices E items) = Some idx -> other = name.
Proof.
  intros Hown. split; [by eapply recorded_index_lt|]. split.
  - destruct (recorded_index_last E items name idx Hown) as (p & Hp & Hn & _).
    rewrite sent_unfold. unfold sent_items. rewrite forEach_items_sent.
    rewrite list_lookup_fmap, Hp. simpl. eexists. split; [done|].
    unfold rewritten_name in Hn. unfold visit_item.
    destruct (section p) as [s|]; [|done]. destruct (truthy_string s); [|done].
    simpl. congruence.
  - intros other Hother. by eapply recorded_index_inj.
Qed.

(** X7: an item without a section, or with the empty one, is sent on as
    it is, and its slot of the response is what the continuation
    returned. *)
Theorem unsectioned_item_passes_through (items : list ConfigurationItem) (arr : list LSPAny)
    (i : nat) (p : ConfigurationItem) :
  next E (sent (configurationMiddleware E items)) = inr arr ->
  items !! i = Some p -> section p = None \/ section p = Some "" ->
  sent (configurationMiddleware E items) !! i = Some p /\
  exists out,
    response (configurationMiddleware E items) = inr out /\ js_get out i = js_get arr i.
Proof.
  intros Hnext Hi Hs. split; [by apply unsectioned_items_unchanged|].
  rewrite sent_unfold in Hnext.
  apply (response_preserves E (fun r => js_get r i = js_get arr i) items arr Hnext); [|done].
  intros name idx v r Hown Hr. rewrite js_get_set_ne; [done|].
  intros ->. destruct (recorded_index_last E items name i Hown) as (p' & Hp' & Hn & _).
  rewrite Hi in Hp'. injection Hp' as <-.
  unfold rewritten_name in Hn. by destruct Hs as [Hs|Hs]; rewrite Hs in Hn.
Qed.

(** X30: whatever array the continuation returns, the bridge drops no
    slot of it and grows it at most to the length of the request. *)
Theorem response_is_never_shorter (items : list ConfigurationItem) (arr : list LSPAny) :
  next E (sent (configurationMiddleware E items)) = inr arr ->
  exists out,
    response (configurationMiddleware E items) = inr out /\
    length arr <= length out <= Nat.max (length arr) (length items).
Proof.
  intros Hnext. rewrite sent_unfold in Hnext.
  apply (response_preserves E
           (fun r => length arr <= length r <= Nat.max (length arr) (length items))
           items arr Hnext); [|lia].
  intros name idx v r Hown Hr. rewrite js_set_length.
  apply recorded_index_lt in Hown. lia.
Qed.

End More.

Lemma response_is_never_shorter_witness :
  exists out,
    response (configurationMiddleware short_env
                [item "zls.enable_snippets"; item "zls.zig_lib_path"]) = inr out /\
    1 <= length out <= 2.
Proof.
  apply (response_is_never_shorter short_env
           [item "zls.enable_snippets"; item "zls.zig_lib_path"] [VBool true]).
  reflexivity.
Defined.

Lemma plain_section_slot_witness :
  exists out,
    response (configurationMiddleware base_env three_items) = inr out /\
    js_get out 2 = VStr "/opt/zig/lib".
Proof.
  apply (plain_section_slot base_env three_items [VNull; VNull; VNull]
           "zig.zls.zigLibPath" 2); try reflexivity. discriminate.
Defined.

Lemma requested_option_gets_value_witness :
  exists out,
    response (configurationMiddleware migrating_env snippets_then_style) = inr out /\
    js_get out 1 = VNum 1.
Proof.
  apply (requested_option_gets_value migrating_env snippets_then_style [VNull; VNull]
           "zig.zls.enableSnippets" (VNum 1) 0); try reflexivity. by right.
Defined.

Lemma migration_moves_the_entry_witness :
  ConfigurationUpdate "additionalOptions" (VObj [("zig.zls.warnStyle", VBool true)])
    ∈ events (configurationMiddleware migrating_env snippets_then_style) /\
  ConfigurationUpdate "enableSnippets" (VNum 1)
    ∈ events (configurationMiddleware migrating_env snippets_then_style).
Proof.
  destruct (migration_moves_the_entry migrating_env snippets_then_style [VNull; VNull]
              "zig.zls.enableSnippets" (VNum 1) eq_refl eq_refl eq_refl eq_refl)
    as (H1 & H2 & _).
  split; [exact H1 | exact H2].
Defined.

Lemma unrequested_options_witness :
  response (configurationMiddleware warn_style_env three_items) =
  response (configurationMiddleware (without_options warn_style_env) three_items).
Proof.
  apply (unrequested_options_change_nothing warn_style_env three_items).
  intros name Hin. apply list_elem_of_singleton in Hin as ->. reflexivity.
Defined.

Lemma discovery_matters_witness :
  response (configurationMiddleware base_env two_items) =
  response (configurationMiddleware
              (with_zig_path base_env (Abrupt (ThrownError "zig not found"))) two_items).
Proof.
  apply (discovery_matters_for_the_alias_only base_env two_items).
  intros [|[|i]] p Hp; simpl in Hp; [| |done]; injection Hp as <-; discriminate.
Defined.

Lemma protocol_error_witness :
  response (configurationMiddleware (with_next conflict_env failing) two_items)
    = inl {| code := (-32603)%Z; message := "internal error" |} /\
  events (configurationMiddleware (with_next conflict_env failing) two_items) = [].
Proof.
  destruct (protocol_error_is_passed_on (with_next conflict_env failing) two_items
              {| code := (-32603)%Z; message := "internal error" |} eq_refl)
    as (Hr & He & _).
  split; [exact Hr | exact He].
Defined.

Lemma index_map_witness :
  1 < length three_items /\
  (exists p, sent (configurationMiddleware base_env three_items) !! 1 = Some p /\
             section p = Some "zig.path") /\
  forall other,
    own_property other (recorded_indices base_env three_items) = Some 1 -> other = "zig.path".
Proof. apply (index_map_well_formed base_env three_items "zig.path" 1). reflexivity. Defined.

Lemma unsectioned_item_witness :
  sent (configurationMiddleware base_env [item ""; item "zls.zig_lib_path"]) !! 0
    = Some (item "") /\
  exists out,
    response (configurationMiddleware base_env [item ""; item "zls.zig_lib_path"]) = inr out /\
    js_get out 0 = js_get [VNull; VNull] 0.
Proof.
  apply (unsectioned_item_passes_through base_env [item ""; item "zls.zig_lib_path"]
           [VNull; VNull] 0 (item "")); [reflexivity | reflexivity | by right].
Defined.

End BridgeMore.

(** ** More on the resolver, the locator and the lifecycle *)

Module ZlsMore.
Import Effect EffectFacts ResolverFacts LocatorFacts LifecycleFacts.

Section More.

Context {SemVer : Type} {SV : SemVerLib SemVer}.

(** *** The resolver *)

Lemma select_at (H : Host SemVer) (response : Response) (w w0 : World) :
  Resolver.select H response w =
  ((Resolver.select H response w0).1.1, w, (Resolver.select H response w0).2).
Proof.
  unfold Resolver.select. destruct (js_in "message" response); [done|].
  destruct (negb (js_in (getHostZigName H) response)); [done|].
  unfold bind, call. by destruct (SemVer_new _).
Qed.

Lemma select_host (H H' : Host SemVer) (response : Response) (w : World) :
  getHostZigName H' = getHostZigName H ->
  Resolver.select H' response w = Resolver.select H response w.
Proof. intros Hn. unfold Resolver.select. by rewrite Hn. Qed.

Lemma fetchVersion_online (H : Host SemVer) (zigVersion : SemVer) (w : World)
    (payload : Response) :
  axios_get H (raw zigVersion) = Normal payload ->
  Resolver.fetchVersion H zigVersion true w =
  Resolver.select H payload
    {| globalState := <[Resolver.cacheKey zigVersion := payload]> (globalState w);
       client := client w; spawned := spawned w |}.
Proof.
  intros Hq.
  unfold Resolver.fetchVersion, Resolver.query, bind, try_catch, call, globalState_update.
  rewrite Hq. simpl. by destruct (Resolver.select H payload _) as [[? ?] ?].
Qed.

(** X8: what a call with the cache on gets from the service, a later
    call whose query fails gets again: the same result, the same
    messages, the store as the first call left it. *)
Theorem online_then_offline (H H' : Host SemVer) (zigVersion : SemVer) (w : World)
    (payload : Response) (t : Thrown) :
  axios_get H (raw zigVersion) = Normal payload ->
  axios_get H' (raw zigVersion) = Abrupt t ->
  getHostZigName H' = getHostZigName H ->
  Resolver.fetchVersion H' zigVersion true (Resolver.fetchVersion H zigVersion true w).1.2 =
  Resolver.fetchVersion H zigVersion true w.
Proof.
  intros Hq Hq' Hn. rewrite (fetchVersion_online H zigVersion w payload Hq).
  rewrite select_world.
  rewrite (fetchVersion_cached H' zigVersion _ t payload Hq'); [|apply lookup_insert_eq].
  by apply select_host.
Qed.

Lemma fetchVersion_world (H : Host SemVer) (zigVersion : SemVer) (useCache : bool) (w : World) :
  (Resolver.fetchVersion H zigVersion useCache w).1.2 =
  match axios_get H (raw zigVersion), useCache with
  | Normal payload, true =>
      {| globalState := <[Resolver.cacheKey zigVersion := payload]> (globalState w);
         client := client w; spawned := spawned w |}
  | _, _ => w
  end.
Proof.
  unfold Resolver.fetchVersion, Resolver.query, bind, try_catch, call, globalState_update,
    globalState_get.
  destruct (axios_get H (raw zigVersion)) as [payload|t], useCache; simpl.
  - pose proof (select_world H payload
      {| globalState := <[Resolver.cacheKey zigVersion := payload]> (globalState w);
         client := client w; spawned := spawned w |}) as Hs.
    by destruct (Resolver.select H payload _) as [[? ?] ?].
  - pose proof (select_world H payload w) as Hs.
    by destruct (Resolver.select H payload w) as [[? ?] ?].
  - destruct (globalState w !! Resolver.cacheKey zigVersion) as [r|]; simpl.
    + pose proof (select_world H r w) as Hs.
      by destruct (Resolver.select H r w) as [[? ?] ?].
    + by destruct t.
  - by destruct t.
Qed.

(** X9: a call for one compiler version leaves what is stored for a
    compiler version of another text as it was. *)
Theorem other_versions_keep_their_entry (H : Host SemVer) (a b : SemVer) (useCache : bool)
    (w : World) :
  raw a <> raw b ->
  globalState (Resolver.fetchVersion H a useCache w).1.2 !! Resolver.cacheKey b =
  globalState w !! Resolver.cacheKey b.
Proof.
  intros Hne. rewrite fetchVersion_world.
  destruct (axios_get H (raw a)) as [payload|t], useCache; try done.
  simpl. apply lookup_insert_ne. intros Heq. by apply Hne, cacheKey_inj.
Qed.

(** X10: with the cache off the store is neither written nor read: it
    is left as it was, and a failed query is an error and null even when
    a response is stored under the key. *)
Theorem cache_off_leaves_the_store (H : Host SemVer) (zigVersion : SemVer) (w : World) :
  (Resolver.fetchVersion H zigVersion false w).1.2 = w /\
  forall message, axios_get H (raw zigVersion) = Abrupt (ThrownError message) ->
    Resolver.fetchVersion H zigVersion false w =
      (Normal None, w, [ShowErrorMessage (FailedToQuery message)]).
Proof.
  split.
  - rewrite fetchVersion_world. by destruct (axios_get H (raw zigVersion)).
  - intros message Hq.
    unfold Resolver.fetchVersion, Resolver.query, bind, try_catch, call.
    by rewrite Hq.
Qed.

Lemma select_Some (H : Host SemVer) (response : Response) (w w' : World)
    (result : Resolver.FetchResult SemVer) (evs : list (Event SemVer)) :
  Resolver.select H response w = (Normal (Some result), w', evs) ->
  js_in "message" response = false /\
  js_in (getHostZigName H) response = true /\
  SemVer_new (js_prop "version" response) = Normal (Resolver.version result) /\
  Resolver.artifact result = js_prop (getHostZigName H) response /\
  w' = w /\ evs = [].
Proof.
  unfold Resolver.select. destruct (js_in "message" response); [done|].
  destruct (js_in (getHostZigName H) response); [|done]. simpl.
  unfold bind, call. destruct (SemVer_new _) as [v|t]; [|done].
  simpl. by intros [= <- <- <-].
Qed.

(** X11: a result of [fetchVersion] with the cache on is backed by the
    store: under the key of the compiler version there is then a
    response without a "message", with an entry for this platform that
    is the result's artifact and a version that parses to the result's;
    and nothing was shown. *)
Theorem result_is_backed_by_the_store (H : Host SemVer) (zigVersion : SemVer) (w w' : World)
    (result : Resolver.FetchResult SemVer) (evs : list (Event SemVer)) :
  Resolver.fetchVersion H zigVersion true w = (Normal (Some result), w', evs) ->
  exists payload,
    globalState w' !! Resolver.cacheKey zigVersion = Some payload /\
    js_in "message" payload = false /\
    js_in (getHostZigName H) payload = true /\
    SemVer_new (js_prop "version" payload) = Normal (Resolver.version result) /\
    Resolver.artifact result = js_prop (getHostZigName H) payload /\
    evs = [].
Proof.
  destruct (axios_get H (raw zigVersion)) as [payload|t] eqn:Hq.
  - rewrite (fetchVersion_online H zigVersion w payload Hq). intros Hs.
    apply select_Some in Hs as (? & ? & ? & ? & -> & ->).
    exists payload. split; [apply lookup_insert_eq | done].
  - destruct (globalState w !! Resolver.cacheKey zigVersion) as [r|] eqn:Hc.
    + rewrite (fetchVersion_cached H zigVersion w t r Hq Hc). intros Hs.
      apply select_Some in Hs as (? & ? & ? & ? & -> & ->). by exists r.
    + unfold Resolver.fetchVersion, Resolver.query, bind, try_catch, call, globalState_get.
      rewrite Hq, Hc. by destruct t.
Qed.

(** *** The locator *)

Lemma truthy_setting_Some (s : option string) :
  truthy_setting s = true -> exists p, s = Some p /\ p <> "".
Proof. destruct s as [[|c p]|]; [done| |done]. intros _. by eexists. Qed.

Lemma resolve_exe_silent (H : Host SemVer) (w : World) :
  truthy_setting (config_path H) = false ->
  is_on (config_enabled H) = false \/ Locator.zig_version H = None ->
  Locator.resolve_exe H w = (Normal None, w, []).
Proof.
  intros Hp Hcase. unfold Locator.resolve_exe. rewrite Hp.
  destruct (is_on (config_enabled H)); [|done]. simpl.
  destruct Hcase as [?|Hz]; [done|]. by rewrite Hz.
Qed.

(** X12: an executable that [getZLSPath] returns did report the
    returned version. With a configured path it is that path, and
    nothing was stored or shown; without one the server is switched on,
    the path is the install path of a result of the resolver, and the
    reported version compares equal to the result's. *)
Theorem located_binary_is_verified (H : Host SemVer) (w w' : World)
    (located : Locator.Located SemVer) (evs : list (Event SemVer)) :
  Locator.getZLSPath H w = (Normal (Some located), w', evs) ->
  getVersion H (Locator.exe located) "--version" = Some (Locator.version located) /\
  (truthy_setting (config_path H) = true ->
     config_path H = Some (Locator.exe located) /\ w' = w /\ evs = []) /\
  (truthy_setting (config_path H) = false ->
     is_on (config_enabled H) = true /\
     exists zigVersion result w0 evs0,
       Resolver.fetchVersion H zigVersion true w = (Normal (Some result), w0, evs0) /\
       Locator.exe located = Locator.installed_exe H result /\
       compare (Locator.version located) (Resolver.version result) = 0%Z).
Proof.
  intros Hget.
  destruct (Locator.resolve_exe H w) as [[[[[p expected]|]|t] w1] evs1] eqn:Hr.
  - rewrite (getZLSPath_resolved H w w1 p expected evs1 Hr) in Hget.
    destruct (getVersion H p "--version") as [v|] eqn:Hv; [|done].
    destruct (truthy_setting (config_path H)) eqn:Hp.
    + destruct (truthy_setting_Some _ Hp) as (p' & Hp' & Hne).
      rewrite (resolve_exe_override H w p' Hp' Hne) in Hr.
      injection Hr as <- <- <- <-. injection Hget as <- <- <-.
      simpl. split; [done|]. split; [done|]. done.
    + destruct (resolve_exe_auto H w w1 p expected evs1 Hp Hr)
        as (zigVersion & result & w0 & evs0 & _ & Hf & Hexe & ->).
      destruct (Z.eqb_spec (compare v (Resolver.version result)) 0) as [Hc|Hc]; [|done].
      injection Hget as <- <- <-. simpl. split; [done|]. split; [done|].
      intros _. split.
      * destruct (is_on (config_enabled H)) eqn:Hon; [done|].
        rewrite resolve_exe_silent in Hr by auto. done.
      * by exists zigVersion, result, w0, evs0.
  - revert Hget. unfold Locator.getZLSPath. unfold bind at 1. by rewrite Hr.
  - revert Hget. unfold Locator.getZLSPath. unfold bind at 1. by rewrite Hr.
Qed.

(** X13: without a configured path, [getZLSPath] gives null at once,
    and queries, stores and shows nothing, when the server is not
    switched on, and when the compiler is found but its version cannot
    be told. A throw of [getZigPath] is caught: null is returned and the
    world is as before. *)
Theorem locator_gives_up_early (H : Host SemVer) (w : World) :
  truthy_setting (config_path H) = false ->
  (is_on (config_enabled H) = false ->
     Locator.getZLSPath H w = (Normal None, w, [])) /\
  (forall zigPath, host_getZigPath H = Normal zigPath ->
     getVersion H zigPath "version" = None ->
     Locator.getZLSPath H w = (Normal None, w, [])) /\
  (forall t, host_getZigPath H = Abrupt t ->
     (Locator.getZLSPath H w).1 = (Normal None, w)).
Proof.
  intros Hp.
  assert (Hsilent : is_on (config_enabled H) = false \/ Locator.zig_version H = None ->
            Locator.getZLSPath H w = (Normal None, w, [])).
  { intros Hcase. unfold Locator.getZLSPath. unfold bind.
    by rewrite (resolve_exe_silent H w Hp Hcase). }
  split; [|split].
  - intros Hoff. apply Hsilent. by left.
  - intros zigPath Hzig Hversion. apply Hsilent. right.
    unfold Locator.zig_version. by rewrite Hzig.
  - intros t Hzig. rewrite Hsilent; [done|]. right.
    unfold Locator.zig_version. by rewrite Hzig.
Qed.

(** X14: when the resolved executable is not installed and the download
    fails, the failure to install is shown after what the resolver
    showed and null is returned; the version of no executable is
    checked. *)
Theorem install_failure_gives_null (H : Host SemVer) (w w0 : World) (zigVersion : SemVer)
    (result : Resolver.FetchResult SemVer) (evs0 : list (Event SemVer)) :
  truthy_setting (config_path H) = false ->
  is_on (config_enabled H) = true ->
  Locator.zig_version H = Some zigVersion ->
  Resolver.fetchVersion H zigVersion true w = (Normal (Some result), w0, evs0) ->
  existsSync H (Locator.installed_exe H result) = false ->
  (forall tarball shasum,
     downloadAndExtractArtifact H (Locator.installDir H result) tarball shasum <> None) ->
  Locator.getZLSPath H w =
    (Normal None, w0,
     evs0 ++ [ShowErrorMessage (FailedToInstall (Resolver.version result))]).
Proof.
  intros Hp Hon Hz Hf Hex Hdl.
  unfold Locator.getZLSPath, Locator.resolve_exe. rewrite Hp, Hon, Hz. simpl.
  unfold bind at 1. unfold bind at 1. rewrite Hf, Hex.
  assert (Hinstall : Locator.install H result w0 =
            (Normal false, w0, [ShowErrorMessage (FailedToInstall (Resolver.version result))])).
  { unfold Locator.install, try_catch, bind, call, perform.
    destruct (member "tarball" (Resolver.artifact result)) as [tarball|?]; [|done].
    destruct (member "shasum" (Resolver.artifact result)) as [shasum|?]; [|done].
    specialize (Hdl tarball shasum).
    by destruct (downloadAndExtractArtifact H _ tarball shasum). }
  unfold bind at 1. rewrite Hinstall. simpl. by rewrite app_nil_r.
Qed.

(** X15: [getZLSPath] leaves the session alone: [client] and the count
    of clients are as before, and no client was started, stopped or
    disposed of. *)
Theorem locator_leaves_the_session_alone (H : Host SemVer) (w w' : World)
    (r : Completion (option (Locator.Located SemVer))) (evs : list (Event SemVer)) :
  Locator.getZLSPath H w = (r, w', evs) ->
  client w' = client w /\ spawned w' = spawned w /\
  Forall (fun ev => is_client_event ev = false) evs.
Proof. apply quiet_getZLSPath. Qed.

(** *** The lifecycle *)

(** X16: with no configured path and the server not switched on, a
    restart is a stop: the running client is stopped and disposed of
    and [client] cleared, and nothing is resolved, stored or shown. *)
Theorem disabled_restart_only_stops (H : Host SemVer) (w : World) :
  truthy_setting (config_path H) = false ->
  is_on (config_enabled H) = false ->
  Lifecycle.restartClient H w = Lifecycle.stopClient H w /\
  (client w = None -> Lifecycle.restartClient H w = (Normal tt, w, [])) /\
  (forall c, client w = Some c -> client_stop H c = None -> client_dispose H c = None ->
     Lifecycle.restartClient H w =
       (Normal tt,
        {| globalState := globalState w; client := None; spawned := spawned w |},
        [ClientStopped c; ClientDisposed c])).
Proof.
  intros Hp Hon.
  assert (Hr : Lifecycle.restartClient H w = Lifecycle.stopClient H w).
  { unfold Lifecycle.restartClient. by rewrite Hp, Hon. }
  rewrite Hr. split; [done|]. split.
  - intros Hc. unfold Lifecycle.stopClient, bind, get_client. by rewrite Hc.
  - intros c Hc Hstop Hdisp.
    unfold Lifecycle.stopClient, bind, get_client, perform, emit, set_client.
    by rewrite Hc, Hstop, Hdisp.
Qed.

(** X17: after a stop that completed [client] is cleared, and a second
    stop does nothing. *)
Theorem stop_twice_is_stop_once (H : Host SemVer) (w w1 : World)
    (evs : list (Event SemVer)) :
  Lifecycle.stopClient H w = (Normal tt, w1, evs) ->
  client w1 = None /\ Lifecycle.stopClient H w1 = (Normal tt, w1, []).
Proof.
  intros Hstop.
  assert (Hc : client w1 = None).
  { revert Hstop. unfold Lifecycle.stopClient, bind, get_client, perform, emit, throw, set_client.
    destruct (client w) as [c|] eqn:Hcw; simpl.
    - destruct (client_stop H c); [done|]. simpl.
      destruct (client_dispose H c); [done|]. simpl. by intros [= <- <-].
    - by intros [= <- <-]. }
  split; [done|]. unfold Lifecycle.stopClient, bind, get_client. by rewrite Hc.
Qed.

(** X18: a stop that fails keeps the handle: when stopping throws, the
    client is not disposed of; when disposing throws, the client was
    stopped; either way [client] still holds it and the throw goes to
    the caller. *)
Theorem failed_stop_keeps_the_handle (H : Host SemVer) (w : World) (c : ClientId)
    (t : Thrown) :
  client w = Some c ->
  (client_stop H c = Some t -> Lifecycle.stopClient H w = (Abrupt t, w, [])) /\
  (client_stop H c = None -> client_dispose H c = Some t ->
     Lifecycle.stopClient H w = (Abrupt t, w, [ClientStopped c])).
Proof.
  intros Hc. split.
  - intros Hstop. unfold Lifecycle.stopClient, bind, get_client, perform, throw.
    by rewrite Hc, Hstop.
  - intros Hstop Hdisp. unfold Lifecycle.stopClient, bind, get_client, perform, emit, throw.
    by rewrite Hc, Hstop, Hdisp.
Qed.


(** X20: a restart with no client running, whose calls all resolve,
    ends with the new client in [client] and that client alone
    running. *)
Theorem first_start_gives_one_session (H : Host SemVer) (w w1 : World)
    (located : Locator.Located SemVer) (evs1 : list (Event SemVer)) :
  negb (truthy_setting (config_path H)) && negb (is_on (config_enabled H)) = false ->
  client w = None ->
  Locator.getZLSPath H w = (Normal (Some located), w1, evs1) ->
  let new := spawned w in
  let args := if config_debugLog H then ["--enable-debug-log"] else [] in
  client_start H new (Locator.exe located) args = None ->
  formatting_dispose H new = None ->
  exists w2,
    Lifecycle.restartClient H w =
      (Normal tt, w2,
       evs1 ++ [ClientStarted new (Locator.exe located) args; FormattingFeatureDisposed new]) /\
    client w2 = Some new /\
    Lifecycle.live_after
      (evs1 ++ [ClientStarted new (Locator.exe located) args; FormattingFeatureDisposed new])
      [] = [new].
Proof.
  intros Hcond Hclient Hget new args Hstart Hfmt.
  destruct (quiet_getZLSPath H w _ _ _ Hget) as (Hc1 & Hs1 & Hq1).
  rewrite Hclient in Hc1.
  eexists. split; [|split].
  - unfold Lifecycle.restartClient. rewrite Hcond. unfold bind at 1. rewrite Hget.
    unfold try_catch, bind, Lifecycle.startClient, Lifecycle.stopClient, bind, new_client,
      get_client, set_client, perform, emit, throw, ret. simpl.
    rewrite Hs1. fold new. fold args. rewrite Hstart, Hfmt. simpl.
    rewrite Hc1. simpl. reflexivity.
  - done.
  - rewrite live_after_app, (live_after_quiet evs1) by done. reflexivity.
Qed.

(** X21: a query that is rejected with a value that is no [Error],
    with nothing stored for the compiler version, makes a restart
    throw that value to its caller: no warning is shown and the world is
    as before. *)
Theorem rejection_reaches_the_caller (H : Host SemVer) (w : World) (zigVersion : SemVer)
    (v : LSPAny) :
  truthy_setting (config_path H) = false ->
  is_on (config_enabled H) = true ->
  Locator.zig_version H = Some zigVersion ->
  axios_get H (raw zigVersion) = Abrupt (ThrownOther v) ->
  globalState w !! Resolver.cacheKey zigVersion = None ->
  Lifecycle.restartClient H w = (Abrupt (ThrownOther v), w, []).
Proof.
  intros Hp Hon Hz Hq Hc.
  unfold Lifecycle.restartClient, Locator.getZLSPath, Locator.resolve_exe.
  rewrite Hp, Hon, Hz. simpl.
  unfold Resolver.fetchVersion, Resolver.query, bind, try_catch, call, globalState_get.
  by rewrite Hq, Hc.
Qed.

End More.

(** *** [isEnabled] *)

(** X22: [isEnabled] is true exactly with a configured path, with the
    server switched on, or with "ask" and the answer "Yes". It asks only
    with "ask" and no configured path, and writes the setting only
    after an answer "Yes" or "No": the value it then writes is "on" when
    it returns true and "off" when it returns false. *)
Theorem isEnabled_asks_once_and_records_the_answer {SemVer : Type} (H : Host SemVer)
    (answer : option string) :
  ((Enable.isEnabled H answer).1 = true <->
     truthy_setting (config_path H) = true \/ config_enabled H = on \/
     (config_enabled H = ask /\ answer = Some "Yes")) /\
  ((Enable.isEnabled H answer).2 <> [] ->
     truthy_setting (config_path H) = false /\ config_enabled H = ask /\
     head (Enable.isEnabled H answer).2 = Some Enable.AskToInstall) /\
  (forall value, Enable.UpdateEnabled value ∈ (Enable.isEnabled H answer).2 ->
     (answer = Some "Yes" \/ answer = Some "No") /\
     value = if (Enable.isEnabled H answer).1 then on else off).
Proof.
  unfold Enable.isEnabled.
  destruct (truthy_setting (config_path H)) eqn:Hp.
  { simpl. split; [by split; auto|]. split; [done|].
    intros value Hin. by apply not_elem_of_nil in Hin. }
  destruct (config_enabled H) eqn:He.
  - destruct answer as [response|].
    + destruct (String.eqb_spec response "Yes") as [->|Hyes].
      * simpl. split; [by split; auto|]. split; [done|].
        intros value Hin. apply elem_of_cons in Hin as [?|Hin]; [done|].
        apply list_elem_of_singleton in Hin as [= ->]. auto.
      * destruct (String.eqb_spec response "No") as [->|Hno]; simpl.
        -- split; [split; [done|]; intros [?|[?|[_ ?]]]; done|]. split; [done|].
           intros value Hin. apply elem_of_cons in Hin as [?|Hin]; [done|].
           apply list_elem_of_singleton in Hin as [= ->]. auto.
        -- split; [split; [done|]; intros [?|[?|[_ ?]]]; [done|done|congruence]|].
           split; [done|].
           intros value Hin. by apply list_elem_of_singleton in Hin.
    + simpl. split; [split; [done|]; intros [?|[?|[_ ?]]]; done|]. split; [done|].
      intros value Hin. by apply list_elem_of_singleton in Hin.
  - simpl. split; [split; [done|]; intros [?|[?|[? _]]]; done|]. split; [done|].
    intros value Hin. by apply not_elem_of_nil in Hin.
  - simpl. split; [by split; auto|]. split; [done|].
    intros value Hin. by apply not_elem_of_nil in Hin.
Qed.

End ZlsMore.

(** ** The code lenses and the run command *)

Module EditorFacts.
Import Editor.

(** *** [escapePath] *)

Lemma replaceAll_quote_length (s : list N) :
  length (replaceAll_quote s) = length s + 3 * length (filter (fun c => c = quote) s).
Proof.
  induction s as [|c rest IH]; [done|]. cbn [replaceAll_quote].
  destruct (N.eqb_spec c quote) as [->|Hne].
  - rewrite filter_cons_True by done. cbn [length]. rewrite IH. lia.
  - rewrite filter_cons_False by done. cbn [length]. rewrite IH. lia.
Qed.

Lemma replaceAll_quote_id (s : JsString) :
  quote ∉ s -> replaceAll_quote s = s.
Proof.
  induction s as [|c rest IH]; [done|]. intros Hq. apply not_elem_of_cons in Hq as [Hc Hq].
  simpl. destruct (N.eqb_spec c quote) as [->|_]; [done|]. by rewrite IH.
Qed.

Lemma existsb_false_Forall (s : JsString) :
  existsb is_special s = false <-> Forall (fun c => is_special c = false) s.
Proof.
  induction s as [|c rest IH]; simpl.
  - split; [intros _; apply Forall_nil_2 | done].
  - rewrite Forall_cons, <- IH. destruct (is_special c); simpl; [|tauto].
    split; [done | by intros [? _]].
Qed.

(** X23: [escapePath] returns a path as it is exactly when the path has
    no character of the class; the empty path is such a path. *)
Theorem escapePath_keeps_plain_paths (rawPath : JsString) :
  escapePath rawPath = rawPath <-> Forall (fun c => is_special c = false) rawPath.
Proof.
  rewrite <- existsb_false_Forall. unfold escapePath.
  destruct (existsb is_special rawPath); [|done].
  split; [|done]. intros Heq. apply (f_equal length) in Heq.
  simpl in Heq. rewrite length_app, replaceAll_quote_length in Heq. simpl in Heq. lia.
Qed.

(** X24: a path with a character of the class is put between double
    quotes, and each double quote of the path adds three units: without
    a double quote in it the path stands between the quotes as it
    is. *)
Theorem escapePath_quotes_the_rest (rawPath : list N) :
  existsb is_special rawPath = true ->
  exists body,
    escapePath rawPath = quote :: body ++ [quote] /\
    length body = length rawPath + 3 * length (filter (fun c => c = quote) rawPath) /\
    (quote ∉ rawPath -> body = rawPath).
Proof.
  intros Hs. unfold escapePath. rewrite Hs. exists (replaceAll_quote rawPath).
  split; [done|]. split; [apply replaceAll_quote_length | apply replaceAll_quote_id].
Qed.

(** *** The pattern *)

Lemma strip_nil (s : JsString) : strip [] s = Some s.
Proof. by destruct s. Qed.

Lemma strip_cons (l c : N) (literal s : JsString) :
  strip (l :: literal) (c :: s) = if N.eqb l c then strip literal s else None.
Proof. reflexivity. Qed.

Lemma strip_Some (literal s r : JsString) :
  strip literal s = Some r <-> s = literal ++ r.
Proof.
  revert s. induction literal as [|l literal IH]; intros s.
  - rewrite strip_nil. split; [by intros [= ->] | by intros ->].
  - destruct s as [|c s]; [done|]. rewrite strip_cons.
    destruct (N.eqb_spec l c) as [->|Hne].
    + rewrite IH. split; [by intros -> | by intros [= ->]].
    + split; [done | intros [= ? ?]; congruence].
Qed.

Lemma skip_white_cons (c : N) (rest : JsString) :
  skip_white (c :: rest) =
  if is_white_space c then ((S (skip_white rest).1), (skip_white rest).2)
  else (0, c :: rest).
Proof.
  change (skip_white (c :: rest)) with
    (if is_white_space c then let '(n, rest') := skip_white rest in (S n, rest')
     else (0, c :: rest)).
  by destruct (is_white_space c), (skip_white rest).
Qed.

Lemma skip_white_inv (s r : JsString) (n : nat) :
  skip_white s = (n, r) ->
  exists ws, s = ws ++ r /\ length ws = n /\ Forall (fun c => is_white_space c = true) ws.
Proof.
  revert n r. induction s as [|c rest IH]; intros n r.
  - intros [= <- <-]. by exists [].
  - rewrite skip_white_cons. destruct (is_white_space c) eqn:Hc.
    + destruct (skip_white rest) as [n' r'] eqn:Hrest. intros [= <- <-].
      destruct (IH n' r' eq_refl) as (ws & -> & <- & Hws).
      exists (c :: ws). split; [done|]. split; [done|]. by apply Forall_cons.
    + intros [= <- <-]. by exists [].
Qed.

Lemma skip_white_app (ws r : JsString) (c : N) :
  Forall (fun c => is_white_space c = true) ws -> is_white_space c = false ->
  skip_white (ws ++ c :: r) = (length ws, c :: r).
Proof.
  intros Hws Hc. induction Hws as [|d ws Hd _ IH].
  - simpl. by rewrite skip_white_cons, Hc.
  - simpl. by rewrite skip_white_cons, Hd, IH.
Qed.

(** X25: the pattern matches at the head of a string exactly when the
    string begins with "pub", white space, "fn", white space, "main",
    white space or none, and an opening parenthesis; the length of the
    match is the length of these. *)
Theorem match_main_is_the_pattern (s : JsString) (len : nat) :
  match_main s = Some len <->
  exists ws1 ws2 ws3 rest,
    s = units "pub" ++ ws1 ++ units "fn" ++ ws2 ++ units "main" ++ ws3 ++ units "(" ++ rest /\
    ws1 <> [] /\ ws2 <> [] /\
    Forall (fun c => is_white_space c = true) (ws1 ++ ws2 ++ ws3) /\
    len = 3 + length ws1 + 2 + length ws2 + 4 + length ws3 + 1.
Proof.
  unfold match_main. split.
  - destruct (strip (units "pub") s) as [r1|] eqn:H1; [|done]. simpl.
    destruct (skip_white r1) as [n1 r2] eqn:H2. destruct n1 as [|n1]; [done|]. simpl.
    destruct (strip (units "fn") r2) as [r3|] eqn:H3; [|done]. simpl.
    destruct (skip_white r3) as [n2 r4] eqn:H4. destruct n2 as [|n2]; [done|]. simpl.
    destruct (strip (units "main") r4) as [r5|] eqn:H5; [|done]. simpl.
    destruct (skip_white r5) as [n3 r6] eqn:H6.
    destruct (strip (units "(") r6) as [r7|] eqn:H7; [|done]. simpl.
    intros [= <-].
    apply strip_Some in H1, H3, H5, H7.
    apply skip_white_inv in H2 as (ws1 & Hr1 & Hl1 & Hw1).
    apply skip_white_inv in H4 as (ws2 & Hr3 & Hl2 & Hw2).
    apply skip_white_inv in H6 as (ws3 & Hr5 & Hl3 & Hw3).
    exists ws1, ws2, ws3, r7. split; [by subst|].
    split; [by destruct ws1|]. split; [by destruct ws2|].
    split; [by rewrite !Forall_app | lia].
  - intros (ws1 & ws2 & ws3 & rest & -> & Hn1 & Hn2 & Hw & ->).
    apply Forall_app in Hw as [Hw1 Hw]. apply Forall_app in Hw as [Hw2 Hw3].
    set (t3 := units "(" ++ rest).
    set (t2 := units "main" ++ ws3 ++ t3).
    set (t1 := units "fn" ++ ws2 ++ t2).
    assert (H1 : skip_white (ws1 ++ t1) = (length ws1, t1))
      by exact (skip_white_app ws1 (110%N :: ws2 ++ t2) 102%N Hw1 eq_refl).
    assert (H2 : skip_white (ws2 ++ t2) = (length ws2, t2))
      by exact (skip_white_app ws2 (97%N :: 105%N :: 110%N :: ws3 ++ t3) 109%N Hw2 eq_refl).
    assert (H3 : skip_white (ws3 ++ t3) = (length ws3, t3))
      by exact (skip_white_app ws3 rest 40%N Hw3 eq_refl).
    rewrite (proj2 (strip_Some (units "pub") _ (ws1 ++ t1)) eq_refl).
    cbn [mbind option_bind]. rewrite H1.
    destruct ws1 as [|c1 ws1]; [done|]. cbn [length Nat.eqb].
    rewrite (proj2 (strip_Some (units "fn") t1 (ws2 ++ t2)) eq_refl).
    cbn [mbind option_bind]. rewrite H2.
    destruct ws2 as [|c2 ws2]; [done|]. cbn [length Nat.eqb].
    rewrite (proj2 (strip_Some (units "main") t2 (ws3 ++ t3)) eq_refl).
    cbn [mbind option_bind]. rewrite H3.
    rewrite (proj2 (strip_Some (units "(") t3 rest) eq_refl).
    cbn [mbind option_bind]. f_equal.
Qed.

Lemma match_main_head (s : JsString) :
  head s <> Some 112%N -> match_main s = None.
Proof.
  intros Hh. unfold match_main.
  destruct (strip (units "pub") s) as [r1|] eqn:H1; [|done].
  apply strip_Some in H1 as ->. by destruct Hh.
Qed.

Lemma white_is_not_p (c : N) : is_white_space c = true -> c <> 112%N.
Proof. by intros Hc ->. Qed.

(** No match begins inside a match: after its first unit a match has
    no "p". *)
Lemma match_main_no_overlap (s : JsString) (len k : nat) :
  match_main s = Some len -> 0 < k < len -> match_main (drop k s) = None.
Proof.
  intros Hm Hk. apply match_main_is_the_pattern in Hm
    as (ws1 & ws2 & ws3 & rest & -> & _ & _ & Hw & ->).
  apply Forall_app in Hw as [Hw1 Hw]. apply Forall_app in Hw as [Hw2 Hw3].
  destruct k as [|k]; [lia|]. apply match_main_head.
  pose (inner := [117; 98]%N ++ ws1 ++ [102; 110]%N ++ ws2 ++
                 [109; 97; 105; 110]%N ++ ws3 ++ [40]%N).
  assert (Hin : Forall (fun c => c <> 112%N) inner).
  { subst inner. repeat (apply Forall_app; split);
      try (eapply Forall_impl; [eassumption | apply white_is_not_p]);
      repeat (apply Forall_cons; split; [done|]); apply Forall_nil_2. }
  assert (Heq : units "pub" ++ ws1 ++ units "fn" ++ ws2 ++ units "main" ++ ws3 ++
                units "(" ++ rest = 112%N :: inner ++ rest).
  { subst inner. rewrite <- !app_assoc. reflexivity. }
  assert (Hlen : k < length inner).
  { subst inner. rewrite !length_app. cbn [length]. cbn [length] in Hk. lia. }
  rewrite Heq. change (drop (S k) (112%N :: inner ++ rest)) with (drop k (inner ++ rest)).
  destruct (inner !! k) as [c|] eqn:Hc; [|apply lookup_ge_None in Hc; lia].
  rewrite (drop_app_le inner rest k) by lia.
  rewrite (drop_S inner c k Hc).
  intros Hh. injection Hh as ->. by apply (Forall_lookup_1 _ _ _ _ Hin Hc).
Qed.

Lemma filter_map_S (P : nat -> Prop) `{!forall k, Decision (P k)} (l : list nat) :
  filter P (map S l) = map S (filter (fun k => P (S k)) l).
Proof.
  induction l as [|k l IH]; [done|]. cbn [map].
  destruct (decide (P (S k))) as [Hk|Hk].
  - rewrite !filter_cons_True by done. cbn [map]. by rewrite IH.
  - by rewrite !filter_cons_False by done.
Qed.

(** The loop finds the matches, each once and in their order. *)
Lemma exec_loop_filter (s : JsString) (index skip : nat) :
  (forall k, k < skip -> match_main (drop k s) = None) ->
  exec_loop s index skip =
  map (fun k => index + k)
    (filter (fun k => is_Some (match_main (drop k s))) (seq 0 (length s))).
Proof.
  revert index skip. induction s as [|c rest IH]; intros index skip Hskip; [done|].
  cbn [length seq]. rewrite <- (fmap_S_seq 0 (length rest)).
  change (S <$> seq 0 (length rest)) with (map S (seq 0 (length rest))).
  assert (Htail : forall skip',
    (forall k, k < skip' -> match_main (drop k rest) = None) ->
    exec_loop rest (S index) skip' =
    map (fun k => index + k)
      (filter (fun k => is_Some (match_main (drop k (c :: rest))))
         (map S (seq 0 (length rest))))).
  { intros skip' Hskip'. rewrite (IH (S index) skip' Hskip').
    rewrite (filter_map_S (fun k => is_Some (match_main (drop k (c :: rest))))).
    rewrite map_map. apply map_ext. intros k. lia. }
  cbn [exec_loop]. destruct skip as [|skip].
  - destruct (match_main (c :: rest)) as [len|] eqn:Hm.
    + rewrite filter_cons_True by (simpl; rewrite Hm; by eexists).
      cbn [map]. rewrite Nat.add_0_r. f_equal. apply Htail.
      intros k Hk. apply (match_main_no_overlap (c :: rest) len (S k) Hm). lia.
    + rewrite filter_cons_False by (simpl; rewrite Hm; by intros [? ?]).
      apply Htail. intros k Hk. lia.
  - rewrite filter_cons_False by (rewrite (Hskip 0) by lia; by intros [? ?]).
    apply Htail. intros k Hk. apply (Hskip (S k)). lia.
Qed.

(** X26: the code lenses of a document are, for every index of its text
    at which the pattern matches, in the order of the text, one "Run"
    lens followed by one "Debug" lens, both at the position of the match
    and with the path of the document as their argument; there are no
    others. *)
Theorem code_lenses_at_every_main (document : TextDocument) :
  provideCodeLenses document =
  concat (map
    (fun index =>
       [ {| range := (positionAt document index, positionAt document index);
            title := "Run"; command := "zig.run"; arguments := [fsPath document] |};
         {| range := (positionAt document index, positionAt document index);
            title := "Debug"; command := "zig.debug"; arguments := [fsPath document] |} ])
    (filter (fun index => is_Some (match_main (drop index (getText document))))
       (seq 0 (length (getText document))))).
Proof.
  unfold provideCodeLenses.
  rewrite (exec_loop_filter (getText document) 0 0) by (intros k Hk; lia).
  rewrite (map_ext (fun k => 0 + k) id) by done. by rewrite map_id.
Qed.

(** *** [zigRun] *)

Lemma matches_all_length (pattern : list Place) (s : JsString) :
  matches_all pattern s = true -> length s = length pattern.
Proof.
  revert s. induction pattern as [|p pattern IH]; intros [|c s]; simpl; try done.
  intros H. apply andb_true_iff in H as [_ H]. by rewrite (IH s H).
Qed.

Lemma matches_all_units (literal s : JsString) :
  matches_all (map Unit literal) s = true <-> s = literal.
Proof.
  revert s. induction literal as [|l literal IH]; intros [|c s]; simpl; try done.
  rewrite andb_true_iff, IH, N.eqb_eq. split; [by intros [-> ->] | by intros [= -> ->]].
Qed.

Lemma matches_all_app (p1 p2 : list Place) (s : JsString) :
  matches_all (p1 ++ p2) s = true <->
  exists s1 s2, s = s1 ++ s2 /\ matches_all p1 s1 = true /\ matches_all p2 s2 = true.
Proof.
  revert s. induction p1 as [|p p1 IH]; intros s; simpl.
  - split.
    + intros H. by exists [], s.
    + intros (s1 & s2 & -> & H1 & H2). by destruct s1.
  - destruct s as [|c s].
    + split; [done|]. intros (s1 & s2 & Heq & H1 & _).
      symmetry in Heq. apply app_eq_nil in Heq as [-> _]. done.
    + rewrite andb_true_iff, IH. split.
      * intros (Hc & s1 & s2 & -> & H1 & H2). exists (c :: s1), s2. simpl.
        by rewrite Hc, H1.
      * intros (s1 & s2 & Heq & H1 & H2). destruct s1 as [|c1 s1]; [done|].
        simpl in Heq. injection Heq as <- ->. simpl in H1.
        apply andb_true_iff in H1 as [Hc H1]. split; [done|]. by exists s1, s2.
Qed.

Lemma ends_with_iff (pattern : list Place) (s : JsString) :
  ends_with pattern s = true <->
  exists before ending, s = before ++ ending /\ matches_all pattern ending = true.
Proof.
  unfold ends_with. split.
  - intros H. exists (take (length s - length pattern) s), (drop (length s - length pattern) s).
    by rewrite take_drop.
  - intros (before & ending & -> & H).
    pose proof (matches_all_length _ _ H) as Hlen.
    rewrite length_app, Hlen.
    replace (length before + length pattern - length pattern) with (length before) by lia.
    by rewrite drop_app_length.
Qed.

Lemma ends_with_word (w : string) (s : JsString) :
  ends_with (word w) s = true <-> exists before, s = before ++ units w.
Proof.
  rewrite ends_with_iff. unfold word. split.
  - intros (before & ending & -> & H). apply matches_all_units in H as ->. by exists before.
  - intros (before & ->). exists before, (units w). split; [done|].
    by apply matches_all_units.
Qed.

Lemma ends_with_dotted (w ext : string) (s : JsString) :
  ends_with (word w ++ Dot :: word ext) s = true <->
  exists before c,
    place_matches Dot c = true /\ s = before ++ units w ++ c :: units ext.
Proof.
  rewrite ends_with_iff. unfold word. split.
  - intros (before & ending & -> & H).
    apply matches_all_app in H as (s1 & s2 & -> & H1 & H2).
    apply matches_all_units in H1 as ->.
    destruct s2 as [|c s2]; [done|]. simpl in H2.
    apply andb_true_iff in H2 as [Hc H2]. apply matches_all_units in H2 as ->.
    by exists before, c.
  - intros (before & c & Hc & ->). exists before, (units w ++ c :: units ext).
    split; [done|]. apply matches_all_app. exists (units w), (c :: units ext).
    split; [done|]. split; [by apply matches_all_units|].
    change (matches_all (Dot :: map Unit (units ext)) (c :: units ext))
      with (place_matches Dot c && matches_all (map Unit (units ext)) (units ext)).
    rewrite Hc. by apply matches_all_units.
Qed.

(** X27: a shell is taken for PowerShell exactly when its path ends in
    "powershell" or "pwsh", or in one of the two followed by one unit
    that is no line terminator (the dot of the pattern, which is no
    literal dot) and "exe". *)
Theorem is_powershell_by_the_end_of_the_path (shell : JsString) :
  is_powershell shell = true <->
  exists before,
    shell = before ++ units "powershell" \/
    shell = before ++ units "pwsh" \/
    exists c, place_matches Dot c = true /\
      (shell = before ++ units "powershell" ++ c :: units "exe" \/
       shell = before ++ units "pwsh" ++ c :: units "exe").
Proof.
  unfold is_powershell. rewrite !orb_true_iff.
  rewrite !ends_with_word, !ends_with_dotted. split.
  - intros [[[(b & c & Hc & ->)|(b & ->)]|(b & c & Hc & ->)]|(b & ->)];
      exists b; eauto 6.
  - intros (b & [-> | [-> | (c & Hc & [-> | ->])]]); eauto 8.
Qed.

(** X28: [zigRun] does nothing without an active editor or without a
    compiler path (none, or the empty one); with both it creates one
    terminal, shows it and then sends one line. *)
Theorem zigRun_needs_editor_and_compiler (W : Workbench) :
  (zigRun W = [] <->
     activeTextEditor W = None \/ provider_getZigPath W = None \/
     provider_getZigPath W = Some []) /\
  (zigRun W <> [] ->
     exists text, zigRun W = [CreateTerminal "Run Zig Program"; TerminalShow; SendText text]).
Proof.
  unfold zigRun. destruct (activeTextEditor W) as [filePath|].
  - destruct (provider_getZigPath W) as [[|c zigPath]|].
    + split; [|done]. split; [intros _; right; by right | done].
    + split; [|intros _; by eexists]. split; [done|]. by intros [?|[?|?]].
    + split; [|done]. split; [intros _; right; by left | done].
  - split; [|done]. split; [intros _; by left | done].
Qed.

(** X29: the line that [zigRun] sends begins with the call operator
    "& " exactly when the shell is taken for PowerShell: the escaped
    compiler path never begins with an ampersand. *)
Theorem call_operator_marks_powershell (W : Workbench) (filePath zigPath : JsString) :
  activeTextEditor W = Some filePath ->
  provider_getZigPath W = Some zigPath -> zigPath <> [] ->
  exists text,
    zigRun W = [CreateTerminal "Run Zig Program"; TerminalShow; SendText text] /\
    (take 2 text = units "& " <-> is_powershell (shell W) = true).
Proof.
  intros He Hz Hne. unfold zigRun. rewrite He, Hz.
  destruct zigPath as [|c zigPath]; [done|].
  eexists. split; [done|].
  assert (Hhead : exists d tail, escapePath (c :: zigPath) = d :: tail /\ d <> 38%N).
  { unfold escapePath. destruct (existsb is_special (c :: zigPath)) eqn:Hs.
    - by eexists _, _.
    - exists c, zigPath. split; [done|]. intros ->. done. }
  destruct Hhead as (d & tail & Hesc & Hd). rewrite Hesc.
  destruct (is_powershell (shell W)).
  - by destruct (match getWorkspaceFolder W filePath with Some _ => _ | None => _ end).
  - change (units "& ") with [38%N; 32%N].
    destruct (match getWorkspaceFolder W filePath with Some _ => _ | None => _ end);
      (split; [|done]); intros Heq; simpl in Heq; injection Heq as Heq _; by destruct Hd.
Qed.

End EditorFacts.

(** ** The further statements on concrete hosts *)

Module MoreRuns.
Import Effect Fixtures MoreFixtures ZlsMore EditorFacts.

Lemma online_then_offline_witness :
  Resolver.fetchVersion offline_host v0_13_0 true
    (Resolver.fetchVersion (auto_host None) v0_13_0 true fresh_world).1.2 =
  Resolver.fetchVersion (auto_host None) v0_13_0 true fresh_world.
Proof.
  apply (online_then_offline (auto_host None) offline_host v0_13_0 fresh_world
           success_payload (ThrownError "getaddrinfo ENOTFOUND releases.zigtools.org"));
    reflexivity.
Defined.

Lemma other_versions_witness :
  globalState (Resolver.fetchVersion (auto_host None) v0_12_1 true cached_world).1.2
    !! Resolver.cacheKey v0_13_0 = Some success_payload.
Proof.
  rewrite (other_versions_keep_their_entry (auto_host None) v0_12_1 v0_13_0 true cached_world);
    [reflexivity | discriminate].
Defined.

Lemma result_is_backed_witness :
  exists payload,
    globalState (Resolver.fetchVersion (auto_host None) v0_13_0 true fresh_world).1.2
      !! Resolver.cacheKey v0_13_0 = Some payload /\
    js_in "message" payload = false /\
    js_in "x86_64-linux" payload = true.
Proof.
  assert (Hrun : Resolver.fetchVersion (auto_host None) v0_13_0 true fresh_world =
            (Normal (Some {| Resolver.version := v0_13_0; Resolver.artifact := linux_artifact |}),
             (Resolver.fetchVersion (auto_host None) v0_13_0 true fresh_world).1.2, []))
    by reflexivity.
  destruct (result_is_backed_by_the_store _ _ _ _ _ _ Hrun)
    as (payload & Hstored & Hmessage & Hhost & _).
  exists payload. split; [exact Hstored|]. split; [exact Hmessage | exact Hhost].
Defined.

Lemma located_binary_witness :
  getVersion (auto_host (Some v0_13_0)) "/storage/zls/0.13.0/zls" "--version" = Some v0_13_0.
Proof.
  assert (Hrun : Locator.getZLSPath (auto_host (Some v0_13_0)) fresh_world =
            (Normal (Some {| Locator.exe := "/storage/zls/0.13.0/zls";
                             Locator.version := v0_13_0 |}),
             (Locator.getZLSPath (auto_host (Some v0_13_0)) fresh_world).1.2,
             (Locator.getZLSPath (auto_host (Some v0_13_0)) fresh_world).2))
    by reflexivity.
  exact (proj1 (located_binary_is_verified _ _ _ _ _ Hrun)).
Defined.

Lemma locator_gives_up_witness :
  Locator.getZLSPath disabled_host cached_world = (Normal None, cached_world, []).
Proof. exact (proj1 (locator_gives_up_early disabled_host cached_world eq_refl) eq_refl). Defined.

Lemma install_failure_witness :
  (Locator.getZLSPath
     (with_download (auto_host (Some v0_13_0)) (Some (ThrownError "ENOSPC"))) fresh_world).2 =
  [ShowErrorMessage (FailedToInstall v0_13_0)].
Proof.
  assert (Hrun : Resolver.fetchVersion
                   (with_download (auto_host (Some v0_13_0)) (Some (ThrownError "ENOSPC")))
                   v0_13_0 true fresh_world =
            (Normal (Some {| Resolver.version := v0_13_0; Resolver.artifact := linux_artifact |}),
             (Resolver.fetchVersion (auto_host None) v0_13_0 true fresh_world).1.2, []))
    by reflexivity.
  rewrite (install_failure_gives_null
             (with_download (auto_host (Some v0_13_0)) (Some (ThrownError "ENOSPC")))
             fresh_world _ v0_13_0 _ [] eq_refl eq_refl eq_refl Hrun eq_refl);
    [reflexivity|].
  intros tarball shasum. discriminate.
Defined.

Lemma locator_leaves_the_session_witness :
  client (Locator.getZLSPath (auto_host (Some v0_13_0)) running_world).1.2 = Some 0.
Proof.
  assert (Hrun : Locator.getZLSPath (auto_host (Some v0_13_0)) running_world =
            ((Locator.getZLSPath (auto_host (Some v0_13_0)) running_world).1.1,
             (Locator.getZLSPath (auto_host (Some v0_13_0)) running_world).1.2,
             (Locator.getZLSPath (auto_host (Some v0_13_0)) running_world).2))
    by reflexivity.
  exact (proj1 (locator_leaves_the_session_alone _ _ _ _ _ Hrun)).
Defined.

Lemma disabled_restart_witness :
  Lifecycle.restartClient disabled_host running_world =
  (Normal tt, {| globalState := ∅; client := None; spawned := 1 |},
   [ClientStopped 0; ClientDisposed 0]).
Proof.
  destruct (disabled_restart_only_stops disabled_host running_world eq_refl eq_refl)
    as (_ & _ & Hrunning).
  exact (Hrunning 0 eq_refl eq_refl eq_refl).
Defined.

Lemma stop_twice_witness :
  Lifecycle.stopClient (auto_host None)
    {| globalState := ∅; client := None; spawned := 1 |} =
  (Normal tt, {| globalState := ∅; client := None; spawned := 1 |}, []).
Proof.
  assert (Hrun : Lifecycle.stopClient (auto_host None) running_world =
            (Normal tt, {| globalState := ∅; client := None; spawned := 1 |},
             [ClientStopped 0; ClientDisposed 0])) by reflexivity.
  exact (proj2 (stop_twice_is_stop_once _ _ _ _ Hrun)).
Defined.

Lemma failed_stop_witness :
  Lifecycle.stopClient
    (with_stop (auto_host None) None (Some (ThrownError "already disposed"))) running_world =
  (Abrupt (ThrownError "already disposed"), running_world, [ClientStopped 0]).
Proof.
  destruct (failed_stop_keeps_the_handle
              (with_stop (auto_host None) None (Some (ThrownError "already disposed")))
              running_world 0 (ThrownError "already disposed") eq_refl) as [_ Hdispose].
  exact (Hdispose eq_refl eq_refl).
Defined.


Lemma first_start_witness :
  client (Lifecycle.restartClient (auto_host (Some v0_13_0)) fresh_world).1.2 = Some 0.
Proof.
  assert (Hlocated :
    Locator.getZLSPath (auto_host (Some v0_13_0)) fresh_world =
    (Normal (Some {| Locator.exe := "/storage/zls/0.13.0/zls"; Locator.version := v0_13_0 |}),
     (Locator.getZLSPath (auto_host (Some v0_13_0)) fresh_world).1.2,
     (Locator.getZLSPath (auto_host (Some v0_13_0)) fresh_world).2)) by reflexivity.
  destruct (first_start_gives_one_session (auto_host (Some v0_13_0)) fresh_world _ _ _
              eq_refl eq_refl Hlocated eq_refl eq_refl)
    as (w2 & Hrun & Hclient & _).
  rewrite Hrun. exact Hclient.
Defined.

Lemma rejection_reaches_the_caller_witness :
  Lifecycle.restartClient cancelled_host fresh_world =
  (Abrupt (ThrownOther (VStr "cancelled")), fresh_world, []).
Proof.
  apply (rejection_reaches_the_caller cancelled_host fresh_world v0_13_0); reflexivity.
Defined.

Lemma escapePath_quotes_witness :
  exists body,
    Editor.escapePath (Editor.units "/home/me/my app") = Editor.quote :: body ++ [Editor.quote] /\
    length body = 15.
Proof.
  destruct (escapePath_quotes_the_rest (Editor.units "/home/me/my app") eq_refl)
    as (body & Hshape & Hlen & _).
  exists body. split; [exact Hshape | exact Hlen].
Defined.

Lemma call_operator_witness :
  exists text,
    Editor.zigRun sample_workbench =
      [Editor.CreateTerminal "Run Zig Program"; Editor.TerminalShow; Editor.SendText text] /\
    take 2 text = Editor.units "& ".
Proof.
  destruct (call_operator_marks_powershell sample_workbench
              (Editor.units "/home/me/my app/src/main.zig") (Editor.units "/usr/bin/zig")
              eq_refl eq_refl) as (text & Hrun & Hop); [discriminate|].
  exists text. split; [exact Hrun | apply Hop; reflexivity].
Defined.

Example two_entry_points :
  Editor.exec_loop two_mains 0 0 = [0; 23] /\
  length (Editor.provideCodeLenses sample_document) = 4.
Proof. split; reflexivity. Qed.

Example capital_letters_are_no_powershell :
  Editor.is_powershell (Editor.units "C:\Program Files\PowerShell\7\PowerShell.EXE") = false.
Proof. reflexivity. Qed.

End MoreRuns.
